(** * AGI_Evolutive.language.renderer: the ornament selection engine

    A shallow embedding of [src/AGI_Evolutive/language/renderer.py]
    (class [LanguageRenderer] and the tokenizer [_tokens]) together with the
    properties its specification states.

    Modelling conventions.
    - A Python [str] is a list of Unicode code points ([pystr]); [len] is
      [length], so that the ornament budget counts code points as Python does.
    - A Python [float] is the rational number it stands for ([Q]).  The
      comparisons of the code are between quotients of small integers or
      against constants, where exact arithmetic takes the same branches as
      IEEE doubles.  The two places where the code computes with floats are
      modelled with the rounding of binary64 ([fl64]): the attempt
      probability of line 123 ([p_try]) and the decay of line 54 ([cool64]).
      [render_reply] keeps the decay in exact arithmetic ([cool]);
      [render_reply_with] leaves the decay step open, and its instance at
      [cool64] is the code as it computes.
    - A Python [set] of strings is a [gset pystr].
    - [str.lower] is a built-in driven by the Unicode case tables; it is a
      parameter of the model ([lower]).  [latin1_lower] is what it computes on
      strings whose code points are below U+0100, and is used to evaluate the
      model on concrete inputs.
    - [self.voice], [self.lex], [random.random] and [time.time] are external
      collaborators: what they answer during one call is part of the [Call]
      record.  Calls on the memory store and on the rule object are recorded
      as a list of [Event]s. *)

From Stdlib Require Import QArith Qminmax Qabs Lqa String Ascii SpecFloat.
From stdpp Require Import base list gmap sets.

Local Open Scope Z_scope.

(** ** Strings *)

Abbreviation pystr := (list N).

(** An ASCII literal as a list of code points. *)
Definition str (s : String.string) : pystr :=
  List.map (fun a => N.of_nat (Ascii.nat_of_ascii a)) (String.list_ascii_of_string s).

Arguments str s%_string.

Definition pystr_eqb (a b : pystr) : bool := bool_decide (a = b).

(** [bool(s)] for a string, a list or a dict. *)
Definition nonempty {A} (s : list A) : bool :=
  match s with [] => false | _ :: _ => true end.

(** [s or ""] where [s] may be [None]. *)
Definition or_empty (s : option pystr) : pystr :=
  match s with Some t => t | None => [] end.

(** [str.isspace] on one code point (the set [str.strip] removes). *)
Definition is_space (c : N) : bool :=
  ((9 <=? c) && (c <=? 13) || (28 <=? c) && (c <=? 32) || (c =? 133) || (c =? 160)
   || (c =? 5760) || (8192 <=? c) && (c <=? 8202) || (c =? 8232) || (c =? 8233)
   || (c =? 8239) || (c =? 8287) || (c =? 12288))%N.

Fixpoint lstrip (s : pystr) : pystr :=
  match s with
  | c :: s' => if is_space c then lstrip s' else s
  | [] => []
  end.

Definition strip (s : pystr) : pystr := rev (lstrip (rev (lstrip s))).

Fixpoint startswith (p s : pystr) : bool :=
  match p, s with
  | [], _ => true
  | a :: p', b :: s' => (a =? b)%N && startswith p' s'
  | _ :: _, [] => false
  end.

Definition endswith (p s : pystr) : bool := startswith (rev p) (rev s).

(** ["?" in s] *)
Definition contains_char (c : N) (s : pystr) : bool := existsb (N.eqb c) s.

(** [str.lower] restricted to Latin-1: A-Z, U+00C0-U+00D6 and U+00D8-U+00DE
    move up by 32, every other code point below U+0100 is its own image. *)
Definition latin1_lower_char (c : N) : N :=
  (if (65 <=? c) && (c <=? 90) || (192 <=? c) && (c <=? 222) && negb (c =? 215)
   then c + 32 else c)%N.

Definition latin1_lower (s : pystr) : pystr := List.map latin1_lower_char s.

(** ** Tokens: [re.findall(r"[A-Za-zÀ-ÿ]{3,}", s.lower())] *)

(** The character class [A-Za-zÀ-ÿ]; the last range is U+00C0..U+00FF. *)
Definition in_class (c : N) : bool :=
  ((65 <=? c) && (c <=? 90) || (97 <=? c) && (c <=? 122) || (192 <=? c) && (c <=? 255))%N.

(** A finished run of class characters is a match when it has 3 or more. *)
Definition emit (run : pystr) : list pystr :=
  if (3 <=? length run)%nat then [run] else [].

(** Left-to-right scan; [run] is the current run of class characters. The
    quantifier [{3,}] is greedy, so a match is always a maximal run. *)
Fixpoint findall_from (run : pystr) (s : pystr) : list pystr :=
  match s with
  | [] => emit run
  | c :: s' =>
      if in_class c then findall_from (run ++ [c]) s'
      else emit run ++ findall_from [] s'
  end.

Definition findall (s : pystr) : list pystr := findall_from [] s.

(** ** Python values held in the loosely typed mappings *)

Inductive PyVal :=
| PyNone
| PyBool (b : bool)
| PyInt (z : Z)
| PyStr (s : pystr).

Definition truthy (v : PyVal) : bool :=
  match v with
  | PyNone => false
  | PyBool b => b
  | PyInt z => negb (z =? 0)
  | PyStr s => nonempty s
  end.

(** [v is False] *)
Definition is_False (v : PyVal) : bool :=
  match v with PyBool false => true | _ => false end.

(** A [dict] with string keys, as an association list (first binding wins). *)
Abbreviation pydict := (list (pystr * PyVal)).

Fixpoint dict_get (k : pystr) (d : pydict) : PyVal :=
  match d with
  | [] => PyNone
  | (k', v) :: d' => if pystr_eqb k k' then v else dict_get k d'
  end.

(** ** Rational comparisons *)

Definition Qltb (x y : Q) : bool := negb (Qle_bool y x).
Definition Qleb (x y : Q) : bool := Qle_bool x y.

(** ** Double precision *)

(** Nearest integer to [n / d] for [n >= 0], ties to the even one. *)
Definition nearest_even (n : Z) (d : positive) : Z :=
  let q := n / Zpos d in
  match 2 * (n mod Zpos d) ?= Zpos d with
  | Lt => q
  | Gt => q + 1
  | Eq => if Z.even q then q else q + 1
  end.

(** [2 ^ k] as a positive number ([1] when [k < 0]). *)
Definition pow2 (k : Z) : positive := Z.to_pos (2 ^ k).

(** The positive rational [n / d] rounded to 53 significant bits: the
    multiple [m * 2^(-k)] nearest to it, where [k] is such that
    [2^52 <= n / d * 2^k < 2^53]. *)
Definition fl64_pos (n d : positive) : Q :=
  let k0 := 52 - (Z.log2 (Zpos n) - Z.log2 (Zpos d)) in
  let scaled_num k := Zpos n * Zpos (pow2 k) in
  let scaled_den k := (d * pow2 (- k))%positive in
  let k := if scaled_num k0 <? 2 ^ 52 * Zpos (scaled_den k0) then k0 + 1 else k0 in
  let m := nearest_even (scaled_num k) (scaled_den k) in
  (m * Zpos (pow2 (- k))) # pow2 k.

(** Round to nearest, ties to even, as binary64 does for the result of an
    operation and for a literal.  The exponent range is not modelled: the
    magnitudes met here neither overflow nor underflow. *)
Definition fl64 (x : Q) : Q :=
  match Qnum x with
  | Z0 => 0
  | Zpos n => fl64_pos n (Qden x)
  | Zneg n => - fl64_pos n (Qden x)
  end.

(** The rational a finite float of the Standard Library stands for. *)
Definition SF2Q (f : spec_float) : Q :=
  match f with
  | S754_finite s m e =>
      let v := (Zpos m * Zpos (pow2 e)) # pow2 (- e) in
      if s then (- v)%Q else v
  | _ => 0%Q
  end.

(** ** Data model *)

(** [self.voice.style()]: a mapping of optional numeric traits. *)
Record Style := {
  formality : option Q;
  warmth : option Q;
  emoji : option Q;
  conciseness : option Q
}.

(** [arch.memory]: the long-term memory store. *)
Record Memory := {
  add_memory_raises : bool;
  has_update_memory : bool;
  update_memory_raises : bool
}.

(** [self.voice.self_model.arch], as far as the renderer looks into it.
    [memory] is [None] when the attribute is absent or falsy;
    [pending_questions] is [arch.question_manager.pending_questions] when it
    can be reached; [build_context n] is what
    [ContextBuilder.build(arch, extra={"pending_questions_count": n})]
    returns, [None] when the import or the call raises. *)
Record Arch := {
  memory : option Memory;
  pending_questions : option (list pystr);
  build_context : nat -> option pydict
}.

(** [self.voice]. [policy_confidence] is [float(pol.confidence())] when the
    policy can be reached and has the method, [None] otherwise. *)
Record Voice := {
  style : Style;
  policy_confidence : option Q;
  arch : option Arch
}.

Record UserStyle := { prefers_long : option PyVal }.

(** The [ctx] mapping; a field is [None] when the key is absent or [None]. *)
Record Context := {
  user_style : option UserStyle;
  last_message : option pystr;
  key_moments : option (list pystr);
  topics : option (list pystr)
}.

(** A rule object offering [to_dict]; [inst_dict] is what [to_dict()] returns
    before [register_use()], [inst_dict_used] what it returns after. *)
Record RuleInstance := {
  inst_dict : pydict;
  has_register_use : bool;
  register_use_raises : bool;
  inst_dict_used : pydict
}.

Inductive RuleObj :=
| RuleDict (d : pydict)          (* a plain mapping *)
| RuleInst (i : RuleInstance)    (* an object with [to_dict] *)
| RuleOpaque.                    (* any other object *)

(** The [semantics] mapping. *)
Record Semantics := {
  text : option pystr;
  rule : option RuleObj;
  interaction_rule : option RuleObj
}.

(** What the collaborators answer during one call of [render_reply]. *)
Record Call := {
  semantics : Semantics;
  ctx : Context;
  voice : Voice;
  lex_sample : option pystr;   (* [self.lex.sample_collocation(novelty=0.3)] *)
  rnd : Q;                     (* [random.random()] *)
  now : Q                      (* [time.time()] *)
}.

Inductive Kind := past | colloc.

(** The instance state: [self._cooldown] and [self._last_used]. *)
Record Renderer := {
  cooldown_past : Q;
  cooldown_colloc : Q;
  last_used_past : pystr;
  last_used_colloc : pystr
}.

Definition cooldown (k : Kind) (r : Renderer) : Q :=
  match k with past => cooldown_past r | colloc => cooldown_colloc r end.

Definition last_used (k : Kind) (r : Renderer) : pystr :=
  match k with past => last_used_past r | colloc => last_used_colloc r end.

(** [ornament used]: [self._cooldown[k] = 2.0; self._last_used[k] = txt]. *)
Definition mark_used (k : Kind) (txt : pystr) (r : Renderer) : Renderer :=
  match k with
  | past => {| cooldown_past := 2; cooldown_colloc := cooldown_colloc r;
               last_used_past := txt; last_used_colloc := last_used_colloc r |}
  | colloc => {| cooldown_past := cooldown_past r; cooldown_colloc := 2;
                 last_used_past := last_used_past r; last_used_colloc := txt |}
  end.

(** [__init__] *)
Definition init : Renderer :=
  {| cooldown_past := 0; cooldown_colloc := 0; last_used_past := []; last_used_colloc := [] |}.

(** [self.THRESH] *)
Definition past_relevance : Q := 25 # 100.
Definition colloc_relevance : Q := 20 # 100.
Definition conf_min : Q := 55 # 100.
Definition chance_colloc : Q := 35 # 100.

(** Side effects on the collaborators, in the order they happen. *)
Inductive MemoryItem :=
| DecisionTrace (rule_id tactic : PyVal) (ctx_snapshot : pydict) (ts : Q)
| Payload (p : pydict).

Inductive Event :=
| RegisterUse
| AddMemory (item : MemoryItem)
| UpdateMemory (p : pydict).

Record Result := {
  out : pystr;
  renderer : Renderer;
  events : list Event
}.

(** ** Literals of the source *)

Definition fallback_text : pystr :=
  str "Je te r" ++ [233%N] ++ str "ponds en tenant compte de notre historique.".
Definition greeting : pystr := str "Bonjour, ".
Definition warm_closing : pystr := str " (je reste dispo si besoin)".
Definition emoji_marker : pystr := [128578%N; 32%N].

(** [f"\n\n↪ En lien : {past_txt}"] *)
Definition past_snippet (t : pystr) : pystr :=
  [10%N; 10%N; 8618%N] ++ str " En lien : " ++ t.

(** [f"\n\n({colloc_txt})"] *)
Definition colloc_snippet (t : pystr) : pystr :=
  [10%N; 10%N; 40%N] ++ t ++ [41%N].

Definition snippet (k : Kind) (t : pystr) : pystr :=
  match k with past => past_snippet t | colloc => colloc_snippet t end.

(** ** Utilities *)

(** [_confidence] *)
Definition _confidence (v : Voice) : Q := default (6 # 10) (policy_confidence v).

(** [(ctx.get("user_style") or {}).get("prefers_long")] *)
Definition get_prefers_long (cx : Context) : PyVal :=
  match user_style cx with
  | Some us => default PyNone (prefers_long us)
  | None => PyNone
  end.

(** [_budget_chars] *)
Definition _budget_chars (v : Voice) (cx : Context) : Z :=
  let base := 160 in
  let base := if truthy (get_prefers_long cx) then base + 80 else base in
  let base := if Qltb (7 # 10) (default (6 # 10) (conciseness (style v)))
              then base - 60 else base in
  Z.max 0 base.

(** One step of the loop of [_decrease_cooldowns]. *)
Definition cool (x : Q) : Q := Qmax 0 (x - (34 # 100)).

(** The same step as the code computes it: [max(0.0, x - 0.34)] in doubles. *)
Definition cool64 (x : Q) : Q := Qmax 0 (fl64 (x - fl64 (34 # 100))).

(** [_decrease_cooldowns] *)
Definition _decrease_cooldowns (r : Renderer) : Renderer :=
  {| cooldown_past := cool (cooldown_past r);
     cooldown_colloc := cool (cooldown_colloc r);
     last_used_past := last_used_past r;
     last_used_colloc := last_used_colloc r |}.

(** [l[-n:]] for [n > 0] *)
Definition last_n {A} (n : nat) (l : list A) : list A := drop (length l - n) l.

(** [(semantics.get("text") or "").strip() or "Je te réponds ..."] *)
Definition base_text (sem : Semantics) : pystr :=
  let t := strip (or_empty (text sem)) in
  if nonempty t then t else fallback_text.

Section Renderer.

(** [str.lower]. *)
Variable lower : pystr -> pystr.

(** [_tokens(s)] *)
Definition _tokens (s : option pystr) : gset pystr :=
  list_to_set (findall (lower (or_empty s))).

(** Line 67: [len(a & b) / max(1, len(a | b))]. *)
Definition jaccard (a b : gset pystr) : Q :=
  Z.of_nat (size (a ∩ b)) # Pos.of_nat (Nat.max 1 (size (a ∪ b))).

(** The loop of [_pick_relevant_moment] over [moments[-8:]]. *)
Fixpoint scan_moments (utoks : gset pystr) (ms : list pystr)
    (best : pystr) (score : Q) : pystr * Q :=
  match ms with
  | [] => (best, score)
  | m :: ms' =>
      let mtoks := _tokens (Some m) in
      if bool_decide (mtoks = ∅) then scan_moments utoks ms' best score
      else
        let jacc := jaccard utoks mtoks in
        if Qltb score jacc then scan_moments utoks ms' m jacc
        else scan_moments utoks ms' best score
  end.

(** [_pick_relevant_moment] *)
Definition _pick_relevant_moment (user_msg : option pystr) (cx : Context) : pystr * Q :=
  let moments := default [] (key_moments cx) in
  match moments with
  | [] => ([], 0%Q)
  | _ :: _ => scan_moments (_tokens user_msg) (last_n 8 moments) [] 0%Q
  end.

(** [_pick_collocation]; [cand] is the lexicon's sample. *)
Definition _pick_collocation (cand : option pystr) (cx : Context) : pystr * Q :=
  let tops : gset pystr := list_to_set (default [] (topics cx)) in
  let c := or_empty cand in
  if nonempty c then
    (c, Z.of_nat (size (_tokens (Some c) ∩ tops))
        # Pos.of_nat (Nat.max 1 (size (_tokens (Some c)))))
  else ([], 0%Q).

(** [_decorate_with_voice] *)
Definition _decorate_with_voice (v : Voice) (txt : pystr) : pystr :=
  let st := style v in
  let txt :=
    if Qltb (75 # 100) (default (4 # 10) (formality st))
       && negb (startswith (str "bonjour") (lower txt)
                || startswith (str "bonsoir") (lower txt))
    then greeting ++ txt else txt in
  let txt :=
    if Qltb (75 # 100) (default (6 # 10) (warmth st)) && negb (endswith (str "!") txt)
    then txt ++ warm_closing else txt in
  if Qltb (6 # 10) (default (2 # 10) (emoji st)) then emoji_marker ++ txt else txt.

(** ** The decision recorder (lines 149-192) *)

Definition rule_truthy (o : RuleObj) : bool :=
  match o with RuleDict d => nonempty d | _ => true end.

(** [semantics.get("rule")], else [semantics.get("interaction_rule")]. *)
Definition attached_rule (sem : Semantics) : option RuleObj :=
  match rule sem with
  | Some o => if rule_truthy o then Some o else interaction_rule sem
  | None => interaction_rule sem
  end.

Definition rule_dict_of (o : RuleObj) : option pydict :=
  match o with
  | RuleInst i => Some (inst_dict i)
  | RuleDict d => Some d
  | RuleOpaque => None
  end.

Definition rule_id_of (o : RuleObj) : PyVal :=
  match rule_dict_of o with Some d => dict_get (str "id") d | None => PyNone end.

(** The inner [try]: [register_use] and persisting the payload. *)
Definition register_and_persist (o : RuleObj) (mem : Memory) : list Event :=
  match o with
  | RuleInst i =>
      if has_register_use i then
        if register_use_raises i then []
        else
          RegisterUse ::
          (let payload := inst_dict_used i in
           if nonempty payload then
             if has_update_memory mem then
               if update_memory_raises mem then [] else [UpdateMemory payload]
             else
               if add_memory_raises mem then [] else [AddMemory (Payload payload)]
           else [])
      else []
  | _ => []
  end.

(** The outer [try]; an exception anywhere ends the block silently. *)
Definition record_decision (c : Call) : list Event :=
  match attached_rule (semantics c) with
  | None => []
  | Some o =>
      let rule_id := rule_id_of o in
      if truthy rule_id then
        match arch (voice c) with
        | Some a =>
            match memory a with
            | Some mem =>
                match build_context a (length (default [] (pending_questions a))) with
                | Some pre_ctx =>
                    if add_memory_raises mem then []
                    else
                      AddMemory (DecisionTrace rule_id
                                   (dict_get (str "tactic") (default [] (rule_dict_of o)))
                                   pre_ctx (now c))
                      :: register_and_persist o mem
                | None => []
                end
            | None => []
            end
        | None => []
        end
      else []
  end.

(** ** [render_reply] *)

(** The short-circuit of line 108. *)
Definition vetoed (c : Call) : bool :=
  Qltb (_confidence (voice c)) conf_min
  || (_budget_chars (voice c) (ctx c) <? 60)
  || is_False (get_prefers_long (ctx c)).

(** ["?" in (ctx.get("last_message") or "")] *)
Definition is_direct_question (c : Call) : bool :=
  contains_char 63%N (or_empty (last_message (ctx c))).

(** Lines 112-119, on the renderer after the decay. *)
Definition use_past (r : Renderer) (c : Call) : bool :=
  let '(past_txt, past_rel) := _pick_relevant_moment (last_message (ctx c)) (ctx c) in
  nonempty past_txt
  && Qleb past_relevance past_rel
  && Qleb (cooldown past r) 0
  && negb (pystr_eqb past_txt (last_used past r))
  && negb (is_direct_question c).

(** Line 123, [THRESH["chance_colloc"] * (0.6 + 0.6 * conf)], with the
    rounding of each literal and of each of the three operations.  [conf] is
    a float: it is read as the double nearest to it, which is itself when it
    is a double and the double 0.6 for the default of [_confidence]. *)
Definition p_try (conf : Q) : Q :=
  fl64 (fl64 chance_colloc * fl64 (fl64 (6 # 10) + fl64 (fl64 (6 # 10) * fl64 conf))).

(** Lines 122-130, on the renderer after the decay. *)
Definition use_colloc (r : Renderer) (c : Call) : bool :=
  let '(colloc_txt, colloc_rel) := _pick_collocation (lex_sample c) (ctx c) in
  nonempty colloc_txt
  && Qltb (rnd c) (p_try (_confidence (voice c)))
  && Qleb colloc_relevance colloc_rel
  && Qleb (cooldown colloc r) 0
  && negb (pystr_eqb colloc_txt (last_used colloc r)).

Definition fits (snip : pystr) (budget : Z) : bool := Z.of_nat (length snip) <=? budget.

Definition render_reply (r0 : Renderer) (c : Call) : Result :=
  let r := _decrease_cooldowns r0 in
  let base := base_text (semantics c) in
  let budget := _budget_chars (voice c) (ctx c) in
  if vetoed c then
    {| out := _decorate_with_voice (voice c) base; renderer := r; events := [] |}
  else
    let past_txt := fst (_pick_relevant_moment (last_message (ctx c)) (ctx c)) in
    let colloc_txt := fst (_pick_collocation (lex_sample c) (ctx c)) in
    let out0 := _decorate_with_voice (voice c) base in
    if use_past r c && fits (past_snippet past_txt) budget then
      {| out := out0 ++ past_snippet past_txt;
         renderer := mark_used past past_txt r;
         events := [] |}
    else if use_colloc r c && fits (colloc_snippet colloc_txt) budget then
      {| out := out0 ++ colloc_snippet colloc_txt;
         renderer := mark_used colloc colloc_txt r;
         events := record_decision c |}
    else
      {| out := out0; renderer := r; events := record_decision c |}.

(** The renderer after a sequence of calls. *)
Fixpoint run (r : Renderer) (cs : list Call) : Renderer :=
  match cs with
  | [] => r
  | c :: cs' => run (renderer (render_reply r c)) cs'
  end.

(** The call returns the decorated base text with no ornament. *)
Definition plain (r : Renderer) (c : Call) : Prop :=
  out (render_reply r c) = _decorate_with_voice (voice c) (base_text (semantics c)).

(** A sequence of calls none of which appends an ornament. *)
Fixpoint quiet (r : Renderer) (cs : list Call) : Prop :=
  match cs with
  | [] => True
  | c :: cs' => plain r c /\ quiet (renderer (render_reply r c)) cs'
  end.

(** The call appends the ornament of kind [k] with text [t]. *)
Definition appended (k : Kind) (r : Renderer) (c : Call) (t : pystr) : Prop :=
  out (render_reply r c)
  = _decorate_with_voice (voice c) (base_text (semantics c)) ++ snippet k t.

(** [uses k r cs ts]: over the calls [cs] made from state [r], the texts
    appended as ornaments of kind [k] are, in order, [ts]. *)
Inductive uses (k : Kind) : Renderer -> list Call -> list pystr -> Prop :=
| uses_nil r : uses k r [] []
| uses_hit r c cs t ts :
    appended k r c t ->
    uses k (renderer (render_reply r c)) cs ts ->
    uses k r (c :: cs) (t :: ts)
| uses_miss r c cs ts :
    (forall t, ~ appended k r c t) ->
    uses k (renderer (render_reply r c)) cs ts ->
    uses k r (c :: cs) ts.

(** The states one engine instance can be in. *)
Inductive reachable : Renderer -> Prop :=
| reach_init : reachable init
| reach_call r c : reachable r -> reachable (renderer (render_reply r c)).

End Renderer.

(** ** The renderer with the decay step left open

    [render_reply_with lower step] is [render_reply] where line 54 applies
    [step] to each level.  At [cool] it is [render_reply] itself; at [cool64]
    the levels are the doubles the code holds. *)

Section Machine.

Variable lower : pystr -> pystr.
Variable step : Q -> Q.

(** [_decrease_cooldowns] *)
Definition _decrease_cooldowns_with (r : Renderer) : Renderer :=
  {| cooldown_past := step (cooldown_past r);
     cooldown_colloc := step (cooldown_colloc r);
     last_used_past := last_used_past r;
     last_used_colloc := last_used_colloc r |}.

(** [render_reply] *)
Definition render_reply_with (r0 : Renderer) (c : Call) : Result :=
  let r := _decrease_cooldowns_with r0 in
  let base := base_text (semantics c) in
  let budget := _budget_chars (voice c) (ctx c) in
  if vetoed c then
    {| out := _decorate_with_voice lower (voice c) base; renderer := r; events := [] |}
  else
    let past_txt := fst (_pick_relevant_moment lower (last_message (ctx c)) (ctx c)) in
    let colloc_txt := fst (_pick_collocation lower (lex_sample c) (ctx c)) in
    let out0 := _decorate_with_voice lower (voice c) base in
    if use_past lower r c && fits (past_snippet past_txt) budget then
      {| out := out0 ++ past_snippet past_txt;
         renderer := mark_used past past_txt r;
         events := [] |}
    else if use_colloc lower r c && fits (colloc_snippet colloc_txt) budget then
      {| out := out0 ++ colloc_snippet colloc_txt;
         renderer := mark_used colloc colloc_txt r;
         events := record_decision c |}
    else
      {| out := out0; renderer := r; events := record_decision c |}.

(** The renderer after a sequence of calls. *)
Fixpoint run_with (r : Renderer) (cs : list Call) : Renderer :=
  match cs with
  | [] => r
  | c :: cs' => run_with (renderer (render_reply_with r c)) cs'
  end.

(** The call returns the decorated base text with no ornament. *)
Definition plain_with (r : Renderer) (c : Call) : Prop :=
  out (render_reply_with r c)
  = _decorate_with_voice lower (voice c) (base_text (semantics c)).

(** A sequence of calls none of which appends an ornament. *)
Fixpoint quiet_with (r : Renderer) (cs : list Call) : Prop :=
  match cs with
  | [] => True
  | c :: cs' => plain_with r c /\ quiet_with (renderer (render_reply_with r c)) cs'
  end.

(** The call appends the ornament of kind [k] with text [t]. *)
Definition appended_with (k : Kind) (r : Renderer) (c : Call) (t : pystr) : Prop :=
  out (render_reply_with r c)
  = _decorate_with_voice lower (voice c) (base_text (semantics c)) ++ snippet k t.

(** A sequence of calls none of which appends an ornament of kind [k]. *)
Fixpoint unused_with (k : Kind) (r : Renderer) (cs : list Call) : Prop :=
  match cs with
  | [] => True
  | c :: cs' =>
      (forall t, ~ appended_with k r c t)
      /\ unused_with k (renderer (render_reply_with r c)) cs'
  end.

(** The states one engine instance can be in. *)
Inductive reachable_with : Renderer -> Prop :=
| reach_with_init : reachable_with init
| reach_with_call r c :
    reachable_with r -> reachable_with (renderer (render_reply_with r c)).

End Machine.


(** ** Sample collaborators and inputs *)

Definition plain_style : Style :=
  {| formality := None; warmth := None; emoji := None; conciseness := None |}.

Definition working_memory : Memory :=
  {| add_memory_raises := false; has_update_memory := true; update_memory_raises := false |}.

Definition demo_arch : Arch :=
  {| memory := Some working_memory;
     pending_questions := Some [];
     build_context := fun n => Some [(str "pending_questions_count", PyInt (Z.of_nat n))] |}.

Definition demo_voice (conf : option Q) : Voice :=
  {| style := plain_style; policy_confidence := conf; arch := Some demo_arch |}.

Definition demo_ctx (us : option UserStyle) (msg : pystr) : Context :=
  {| user_style := us; last_message := Some msg;
     key_moments := Some [str "your move last week"]; topics := None |}.

(** A reply carrying an interaction rule with identifier ["r1"]. *)
Definition demo_sem : Semantics :=
  {| text := Some (str "Sure, I can help.");
     rule := Some (RuleDict [(str "id", PyStr (str "r1"))]);
     interaction_rule := None |}.

Definition demo_call (conf : Q) (us : option UserStyle) (msg : pystr) : Call :=
  {| semantics := demo_sem; ctx := demo_ctx us msg; voice := demo_voice (Some conf);
     lex_sample := None; rnd := 1 # 2; now := 0 |}.

Definition msg_move : pystr := str "stressed about the move last week".
Definition msg_question : pystr := str "the move last week?".
Definition txt_move : pystr := str "your move last week".

(** The past link applies. *)
Definition call_move : Call := demo_call (8 # 10) None msg_move.
(** A direct question: no past link, and the lexicon offers nothing. *)
Definition call_question : Call := demo_call (8 # 10) None msg_question.
(** The user asked for short replies. *)
Definition call_short : Call :=
  demo_call (8 # 10) (Some {| prefers_long := Some (PyBool false) |}) msg_move.

(** The instance after one call that used the past link. *)
Definition after_move : Renderer := renderer (render_reply latin1_lower init call_move).

(** The capitals of Latin-1: A-Z and U+00C0..U+00DE without the sign U+00D7. *)
Definition is_upper (c : N) : bool :=
  ((65 <=? c) && (c <=? 90) || (192 <=? c) && (c <=? 222) && negb (c =? 215))%N.

(** [t] is a match of [[A-Za-zÀ-ÿ]{3,}] in [s]: a run of class characters,
    at least 3 long, that cannot be extended on either side. *)
Definition is_token_of (t s : pystr) : Prop :=
  (3 <= length t)%nat
  /\ Forall (fun c => in_class c = true) t
  /\ exists pre post, s = pre ++ t ++ post
       /\ (forall x, last pre = Some x -> in_class x = false)
       /\ (forall y, head post = Some y -> in_class y = false).

(** Two probabilities agree roughly when they differ by at most 0.05. *)
Definition roughly (x y : Q) : Prop := (Qabs (x - y) <= 5 # 100)%Q.

(** A short acknowledgement: no word of 3 letters. *)
Definition call_ok : Call := demo_call (8 # 10) None (str "ok").

(** No key moment, nothing from the lexicon, no policy to ask. *)
Definition call_bare : Call :=
  {| semantics := demo_sem;
     ctx := {| user_style := None; last_message := Some msg_move;
               key_moments := None; topics := None |};
     voice := {| style := plain_style; policy_confidence := None; arch := None |};
     lex_sample := None; rnd := 1 # 2; now := 0 |}.

(** [call_move] without any rule, without memory, at another time. *)
Definition call_move_untraced : Call :=
  {| semantics := {| text := Some (str "Sure, I can help.");
                     rule := None; interaction_rule := None |};
     ctx := demo_ctx None msg_move;
     voice := {| style := plain_style; policy_confidence := Some (8 # 10); arch := None |};
     lex_sample := None; rnd := 1 # 2; now := 7 |}.

(** [str.isalpha] on the code points below U+0100: the letters of ASCII,
    U+00AA, U+00B5, U+00BA and U+00C0..U+00FF without the two signs U+00D7
    (multiplication) and U+00F7 (division). *)
Definition is_alpha (c : N) : bool :=
  ((65 <=? c) && (c <=? 90) || (97 <=? c) && (c <=? 122)
   || (c =? 170) || (c =? 181) || (c =? 186)
   || (192 <=? c) && (c <=? 255) && negb (c =? 215) && negb (c =? 247))%N.

(** The lexicon offers a phrase about a current topic; the message is a
    direct question, so that no past link stands in the way. *)
Definition call_colloc (conf rnd0 : Q) : Call :=
  {| semantics := demo_sem;
     ctx := {| user_style := None; last_message := Some msg_question;
               key_moments := None; topics := Some [str "garden"] |};
     voice := demo_voice (Some conf);
     lex_sample := Some (str "garden party");
     rnd := rnd0; now := 0 |}.

(** The instance of the code after one call that used the past link. *)
Definition after_move64 : Renderer :=
  renderer (render_reply_with latin1_lower cool64 init call_move).

(** An instance whose collocation level is 0.25. *)
Definition colloc_at_quarter : Renderer :=
  {| cooldown_past := 0; cooldown_colloc := 1 # 4;
     last_used_past := []; last_used_colloc := [] |}.

(** ** Basic facts *)

Lemma Qltb_lt (x y : Q) : Qltb x y = true <-> (x < y)%Q.
Proof.
  unfold Qltb. rewrite negb_true_iff. split.
  - intros H. apply Qnot_le_lt. intros Hle. apply Qle_bool_iff in Hle. congruence.
  - intros H. destruct (Qle_bool y x) eqn:E; [|reflexivity].
    apply Qle_bool_iff in E. exfalso. exact (Qlt_not_le _ _ H E).
Qed.

Lemma Qltb_ge (x y : Q) : Qltb x y = false <-> (y <= x)%Q.
Proof.
  unfold Qltb. rewrite negb_false_iff. apply Qle_bool_iff.
Qed.

Lemma Qleb_le (x y : Q) : Qleb x y = true <-> (x <= y)%Q.
Proof. apply Qle_bool_iff. Qed.

Lemma app_eq_self {A} (l k : list A) : l = l ++ k -> k = [].
Proof.
  intros H. apply (f_equal length) in H. rewrite length_app in H.
  destruct k; [reflexivity | simpl in H; lia].
Qed.

Lemma forallb_rev {A} (f : A -> bool) (l : list A) : forallb f (rev l) = forallb f l.
Proof.
  induction l as [|a l IH]; [reflexivity|].
  simpl. rewrite forallb_app, IH. simpl. rewrite andb_true_r. apply andb_comm.
Qed.

Lemma lstrip_nil (s : pystr) : lstrip s = [] <-> forallb is_space s = true.
Proof.
  induction s as [|c s IH]; simpl; [tauto|].
  destruct (is_space c); simpl; [exact IH | split; discriminate].
Qed.

Lemma lstrip_fixed (s : pystr) : forallb is_space (lstrip s) = true -> lstrip s = [].
Proof.
  induction s as [|c s IH]; simpl; [reflexivity|].
  destruct (is_space c) eqn:E; [exact IH|].
  simpl. rewrite E. discriminate.
Qed.

Lemma strip_nil (s : pystr) : strip s = [] <-> forallb is_space s = true.
Proof.
  unfold strip. rewrite <- lstrip_nil. split.
  - intros H. apply (f_equal (@rev N)) in H. rewrite rev_involutive in H. simpl in H.
    apply lstrip_nil in H. rewrite forallb_rev in H. apply lstrip_fixed, H.
  - intros H. rewrite H. reflexivity.
Qed.

Lemma base_text_nonempty (sem : Semantics) : base_text sem <> [].
Proof.
  unfold base_text. destruct (strip (or_empty (text sem))) eqn:E; simpl; discriminate.
Qed.

Lemma budget_values (v : Voice) (cx : Context) :
  _budget_chars v cx
  = 160 + (if truthy (get_prefers_long cx) then 80 else 0)
        - (if Qltb (7 # 10) (default (6 # 10) (conciseness (style v))) then 60 else 0).
Proof.
  unfold _budget_chars.
  destruct (truthy _), (Qltb _ _); reflexivity.
Qed.

(** *** The scan of [re.findall] *)

Lemma elem_of_emit (t run : pystr) : t ∈ emit run <-> t = run /\ (3 <= length run)%nat.
Proof.
  unfold emit. destruct (3 <=? length run)%nat eqn:E.
  - apply Nat.leb_le in E. rewrite list_elem_of_singleton. tauto.
  - apply Nat.leb_gt in E. split; [intros H; inversion H | intros [_ H]; lia].
Qed.

Lemma findall_from_sound (s run t : pystr) :
  Forall (fun c => in_class c = true) run ->
  t ∈ findall_from run s ->
  (3 <= length t)%nat
  /\ Forall (fun c => in_class c = true) t
  /\ exists pre post, run ++ s = pre ++ t ++ post
       /\ (forall x, last pre = Some x -> in_class x = false)
       /\ (forall y, head post = Some y -> in_class y = false).
Proof.
  revert run. induction s as [|c s IH]; intros run Hrun Ht; simpl in Ht.
  - apply elem_of_emit in Ht as [-> Hlen]. repeat split; auto.
    exists [], []. simpl. repeat split; discriminate.
  - destruct (in_class c) eqn:Ec.
    + destruct (IH (run ++ [c])) as (Hl & Hc & pre & post & E & Hpre & Hpost); auto.
      { apply Forall_app. split; auto. }
      repeat split; auto. exists pre, post. rewrite <- app_assoc in E. auto.
    + apply elem_of_app in Ht as [Ht|Ht].
      * apply elem_of_emit in Ht as [-> Hlen]. repeat split; auto.
        exists [], (c :: s). simpl. repeat split; [discriminate|].
        intros y [= <-]. exact Ec.
      * destruct (IH [] (Forall_nil_2 _) Ht) as (Hl & Hc & pre & post & E & Hpre & Hpost).
        repeat split; auto. exists (run ++ c :: pre), post. simpl in E.
        repeat split; auto.
        -- rewrite E, <- app_assoc. reflexivity.
        -- intros x Hx. rewrite last_app in Hx.
           destruct pre as [|p pre]; [simpl in Hx; congruence|].
           rewrite last_cons in Hx.
           destruct (last (p :: pre)) eqn:El; [|apply last_None in El; discriminate].
           apply Hpre. congruence.
Qed.

Lemma findall_from_class (t s run : pystr) :
  Forall (fun c => in_class c = true) t ->
  findall_from run (t ++ s) = findall_from (run ++ t) s.
Proof.
  revert run. induction t as [|c t IH]; intros run Ht; simpl.
  - rewrite app_nil_r. reflexivity.
  - inversion Ht as [|? ? Hc Ht']; subst. rewrite Hc, IH by assumption.
    rewrite <- app_assoc. reflexivity.
Qed.

Lemma findall_from_restart (pre rest run : pystr) (x : N) :
  in_class x = false ->
  exists l, findall_from run (pre ++ x :: rest) = l ++ findall_from [] rest.
Proof.
  intros Hx. revert run. induction pre as [|c pre IH]; intros run; simpl.
  - rewrite Hx. eexists. reflexivity.
  - destruct (in_class c).
    + apply IH.
    + destruct (IH []) as [l ->]. exists (emit run ++ l). apply app_assoc.
Qed.

Lemma findall_run_found (t post : pystr) :
  (3 <= length t)%nat ->
  Forall (fun c => in_class c = true) t ->
  (forall y, head post = Some y -> in_class y = false) ->
  t ∈ findall_from [] (t ++ post).
Proof.
  intros Hl Ht Hpost. rewrite findall_from_class by assumption. simpl.
  destruct post as [|y post]; simpl.
  - apply elem_of_emit. auto.
  - rewrite (Hpost y eq_refl). apply elem_of_app. left. apply elem_of_emit. auto.
Qed.

Lemma findall_spec (t s : pystr) : t ∈ findall s <-> is_token_of t s.
Proof.
  unfold findall, is_token_of. split.
  - intros H. exact (findall_from_sound s [] t (Forall_nil_2 _) H).
  - intros (Hl & Hc & pre & post & -> & Hpre & Hpost).
    destruct (last pre) as [x|] eqn:El.
    + apply last_Some in El as [pre' ->]. rewrite <- app_assoc. simpl.
      destruct (findall_from_restart pre' (t ++ post) [] x) as [l ->].
      { apply Hpre. reflexivity. }
      apply elem_of_app. right. apply findall_run_found; auto.
    + apply last_None in El as ->. simpl. apply findall_run_found; auto.
Qed.

(** *** Jaccard similarity *)

Lemma Zpos_of_nat_max (n : nat) : Zpos (Pos.of_nat (Nat.max 1 n)) = Z.of_nat (Nat.max 1 n).
Proof. rewrite <- positive_nat_Z, Nat2Pos.id by lia. reflexivity. Qed.

Lemma ratio_bounds (n d : nat) :
  (n <= d)%nat -> (0 <= Z.of_nat n # Pos.of_nat (Nat.max 1 d) <= 1)%Q.
Proof.
  intros H. unfold Qle. simpl. rewrite Zpos_of_nat_max. lia.
Qed.

Lemma jaccard_bounds (a b : gset pystr) : (0 <= jaccard a b <= 1)%Q.
Proof.
  unfold jaccard. apply ratio_bounds. apply subseteq_size.
  transitivity a; [apply intersection_subseteq_l | apply union_subseteq_l].
Qed.

Lemma jaccard_empty_r (a : gset pystr) : jaccard a ∅ = (0 # Pos.of_nat (Nat.max 1 (size a)))%Q.
Proof.
  unfold jaccard.
  rewrite intersection_empty_r_L, union_empty_r_L, size_empty. reflexivity.
Qed.

Section Properties.

Variable lower : pystr -> pystr.

Ltac shape pre suf :=
  exists pre, suf; simpl; rewrite <- ?app_assoc, ?app_nil_r; reflexivity.

(** Voice decoration only adds text around its argument. *)
Lemma decorate_shape (v : Voice) (t : pystr) :
  exists pre suf, _decorate_with_voice lower v t = pre ++ t ++ suf.
Proof.
  unfold _decorate_with_voice.
  repeat match goal with |- context [if ?b then _ else _] => destruct b end;
    first [ shape (@nil N) (@nil N) | shape greeting (@nil N)
          | shape (@nil N) warm_closing | shape greeting warm_closing
          | shape emoji_marker (@nil N) | shape (emoji_marker ++ greeting) (@nil N)
          | shape emoji_marker warm_closing
          | shape (emoji_marker ++ greeting) warm_closing ].
Qed.

Lemma decorate_nonempty (v : Voice) (t : pystr) :
  t <> [] -> _decorate_with_voice lower v t <> [].
Proof.
  intros Ht. destruct (decorate_shape v t) as (pre & suf & ->).
  intros H. apply app_eq_nil in H as [_ H]. apply app_eq_nil in H as [H _]. auto.
Qed.

(** What one call does: the three ways [render_reply] can end. *)
Lemma render_reply_cases (r : Renderer) (c : Call) :
  let res := render_reply lower r c in
  let dec := _decorate_with_voice lower (voice c) (base_text (semantics c)) in
  let r1 := _decrease_cooldowns r in
  let past_txt := fst (_pick_relevant_moment lower (last_message (ctx c)) (ctx c)) in
  let colloc_txt := fst (_pick_collocation lower (lex_sample c) (ctx c)) in
  (out res = dec /\ renderer res = r1)
  \/ (vetoed c = false /\ use_past lower r1 c = true
      /\ out res = dec ++ past_snippet past_txt
      /\ renderer res = mark_used past past_txt r1 /\ events res = [])
  \/ (vetoed c = false /\ use_colloc lower r1 c = true
      /\ out res = dec ++ colloc_snippet colloc_txt
      /\ renderer res = mark_used colloc colloc_txt r1).
Proof.
  cbv zeta. unfold render_reply.
  destruct (vetoed c) eqn:Hv; [left; split; reflexivity|].
  destruct (use_past lower _ c && fits _ _) eqn:Hp.
  { apply andb_true_iff in Hp as [Hp _]. right; left. cbn. auto. }
  destruct (use_colloc lower _ c && fits _ _) eqn:Hc.
  { apply andb_true_iff in Hc as [Hc _]. right; right. cbn. auto. }
  left; split; reflexivity.
Qed.

(** C10. The ornament budget is 160, plus 80 when [prefers_long] is truthy,
    minus 60 when the voice's conciseness exceeds 0.7; hence it is at least
    100, the test [budget < 60] of [render_reply] is never the one that
    fails, and the clamp [max(0, base)] never changes the value. *)
Theorem C10_budget_at_least_100 (v : Voice) (cx : Context) :
  100 <= _budget_chars v cx
  /\ _budget_chars v cx
     = 160 + (if truthy (get_prefers_long cx) then 80 else 0)
           - (if Qltb (7 # 10) (default (6 # 10) (conciseness (style v))) then 60 else 0)
  /\ (_budget_chars v cx <? 60) = false
  /\ Z.max 0 (_budget_chars v cx) = _budget_chars v cx
  /\ forall c : Call,
       vetoed c = (Qltb (_confidence (voice c)) conf_min || is_False (get_prefers_long (ctx c))).
Proof.
  assert (B : forall v' cx', 100 <= _budget_chars v' cx').
  { intros v' cx'. rewrite budget_values. destruct (truthy _), (Qltb _ _); lia. }
  pose proof (budget_values v cx) as E.
  repeat split.
  - apply B.
  - exact E.
  - apply Z.ltb_ge. specialize (B v cx). lia.
  - specialize (B v cx). lia.
  - intros c. unfold vetoed.
    replace (_budget_chars (voice c) (ctx c) <? 60) with false.
    + rewrite orb_false_r. reflexivity.
    + symmetry. apply Z.ltb_ge. specialize (B (voice c) (ctx c)). lia.
Qed.

(** C1. When the confidence is below 0.55, or the budget is below 60, or
    [prefers_long] is the value [False], [render_reply] returns exactly the
    voice-decorated base text, whatever the candidates, the cooldowns and the
    random draw are; no ornament is recorded as used and nothing is written.
    An absent [prefers_long] (no [user_style], or no such key, or [None]) is
    not a veto: the [is False] test fails on it. *)
Theorem C1_veto_returns_plain_text (r : Renderer) (c : Call) :
  ((_confidence (voice c) < conf_min)%Q
   \/ _budget_chars (voice c) (ctx c) < 60
   \/ get_prefers_long (ctx c) = PyBool false ->
   out (render_reply lower r c)
     = _decorate_with_voice lower (voice c) (base_text (semantics c))
   /\ renderer (render_reply lower r c) = _decrease_cooldowns r
   /\ events (render_reply lower r c) = [])
  /\ ((user_style (ctx c) = None
       \/ user_style (ctx c) = Some {| prefers_long := None |}
       \/ user_style (ctx c) = Some {| prefers_long := Some PyNone |}) ->
      is_False (get_prefers_long (ctx c)) = false
      /\ vetoed c = (Qltb (_confidence (voice c)) conf_min
                     || (_budget_chars (voice c) (ctx c) <? 60))).
Proof.
  split.
  - intros H.
    assert (Hv : vetoed c = true).
    { unfold vetoed. destruct H as [H|[H|H]].
      - apply Qltb_lt in H. rewrite H. reflexivity.
      - apply Z.ltb_lt in H. rewrite H. apply orb_true_iff. left. apply orb_true_r.
      - rewrite H. simpl. apply orb_true_r. }
    unfold render_reply. rewrite Hv. cbn. auto.
  - intros H. unfold vetoed, get_prefers_long.
    destruct H as [-> | [-> | ->]]; simpl; rewrite orb_false_r; auto.
Qed.

Lemma past_snippet_not_colloc (t t' k k' : pystr) :
  past_snippet t ++ k <> colloc_snippet t' ++ k'.
Proof. unfold past_snippet, colloc_snippet. simpl. discriminate. Qed.

Lemma snippet_nonempty (k : Kind) (t : pystr) : snippet k t <> [].
Proof. destruct k; discriminate. Qed.

(** C2. One call appends at most one ornament: the reply is the decorated
    base text alone, or followed by the past-link snippet, or followed by the
    collocation snippet, and the instance records a use for that kind only;
    the two snippets never follow one another.  When the past link is
    eligible and its snippet fits the budget, it is the one appended, the
    past cooldown becomes 2.0, the text is recorded as last used, and the
    call ends there: the collocation ledger is left as the decay made it. *)
Theorem C2_at_most_one_ornament_past_first (r : Renderer) (c : Call) :
  let res := render_reply lower r c in
  let dec := _decorate_with_voice lower (voice c) (base_text (semantics c)) in
  let r1 := _decrease_cooldowns r in
  let past_txt := fst (_pick_relevant_moment lower (last_message (ctx c)) (ctx c)) in
  let colloc_txt := fst (_pick_collocation lower (lex_sample c) (ctx c)) in
  ((out res = dec /\ renderer res = r1)
   \/ (out res = dec ++ past_snippet past_txt
       /\ renderer res = mark_used past past_txt r1)
   \/ (out res = dec ++ colloc_snippet colloc_txt
       /\ renderer res = mark_used colloc colloc_txt r1))
  /\ (forall t, out res <> dec ++ past_snippet past_txt ++ colloc_snippet t)
  /\ (forall t, out res <> dec ++ colloc_snippet colloc_txt ++ past_snippet t)
  /\ (vetoed c = false ->
      use_past lower r1 c = true ->
      fits (past_snippet past_txt) (_budget_chars (voice c) (ctx c)) = true ->
      out res = dec ++ past_snippet past_txt
      /\ cooldown past (renderer res) = 2%Q
      /\ last_used past (renderer res) = past_txt
      /\ cooldown colloc (renderer res) = cool (cooldown colloc r)
      /\ last_used colloc (renderer res) = last_used colloc r
      /\ events res = []).
Proof.
  cbv zeta.
  pose proof (render_reply_cases r c) as Hc. cbv zeta in Hc.
  repeat split.
  - destruct Hc as [H | [(_ & _ & H1 & H2 & _) | (_ & _ & H1 & H2)]]; auto.
  - intros t E.
    destruct Hc as [[H _] | [(_ & _ & H & _) | (_ & _ & H & _)]];
      rewrite H in E.
    + apply app_eq_self in E. apply app_eq_nil in E as [E _]. discriminate.
    + apply app_inv_head, app_eq_self in E. discriminate.
    + apply app_inv_head in E.
      exact (past_snippet_not_colloc _ _ _ []
               (eq_trans (eq_sym E) (eq_sym (app_nil_r _)))).
  - intros t E.
    destruct Hc as [[H _] | [(_ & _ & H & _) | (_ & _ & H & _)]];
      rewrite H in E.
    + apply app_eq_self in E. apply app_eq_nil in E as [E _]. discriminate.
    + apply app_inv_head in E.
      exact (past_snippet_not_colloc _ _ [] _ (eq_trans (app_nil_r _) E)).
    + apply app_inv_head, app_eq_self in E. discriminate.
  - unfold render_reply. rewrite H, H0, H1. reflexivity.
  - unfold render_reply. rewrite H, H0, H1. reflexivity.
  - unfold render_reply. rewrite H, H0, H1. reflexivity.
  - unfold render_reply. rewrite H, H0, H1. reflexivity.
  - unfold render_reply. rewrite H, H0, H1. reflexivity.
  - unfold render_reply. rewrite H, H0, H1. reflexivity.
Qed.

(** C3. The reply is never empty and always starts with the voice-decorated
    base text; the decoration itself only adds text around the base.  The
    base text is the stripped [text] of the semantics, or the fallback
    sentence when [text] is absent or contains nothing but white space. *)
Theorem C3_reply_starts_with_decorated_base (r : Renderer) (c : Call) :
  let dec := _decorate_with_voice lower (voice c) (base_text (semantics c)) in
  out (render_reply lower r c) <> []
  /\ dec `prefix_of` out (render_reply lower r c)
  /\ (exists pre suf, dec = pre ++ base_text (semantics c) ++ suf)
  /\ base_text (semantics c) <> []
  /\ base_text (semantics c)
     = (if forallb is_space (or_empty (text (semantics c)))
        then fallback_text else strip (or_empty (text (semantics c)))).
Proof.
  cbv zeta.
  pose proof (render_reply_cases r c) as Hc. cbv zeta in Hc.
  pose proof (decorate_nonempty (voice c) _ (base_text_nonempty (semantics c))) as Hd.
  assert (Hp : _decorate_with_voice lower (voice c) (base_text (semantics c))
               `prefix_of` out (render_reply lower r c)).
  { destruct Hc as [[H _] | [(_ & _ & H & _) | (_ & _ & H & _)]]; rewrite H.
    - exists []. symmetry. apply app_nil_r.
    - eexists. reflexivity.
    - eexists. reflexivity. }
  repeat split.
  - destruct Hp as [k Hk]. rewrite Hk. intros E. apply app_eq_nil in E as [E _]. auto.
  - exact Hp.
  - apply decorate_shape.
  - apply base_text_nonempty.
  - unfold base_text.
    destruct (forallb is_space (or_empty (text (semantics c)))) eqn:E.
    + apply strip_nil in E. rewrite E. reflexivity.
    + destruct (strip (or_empty (text (semantics c)))) eqn:E'; [|reflexivity].
      apply strip_nil in E'. congruence.
Qed.

Lemma in_class_alpha (c : N) :
  in_class c = true -> is_alpha c = true \/ c = 215%N \/ c = 247%N.
Proof.
  unfold in_class, is_alpha. intros H.
  destruct (N.eq_dec c 215%N) as [E|E]; [auto|].
  destruct (N.eq_dec c 247%N) as [E'|E']; [auto|].
  left. apply N.eqb_neq in E, E'. rewrite E, E'. simpl.
  rewrite !andb_true_r.
  destruct ((65 <=? c) && (c <=? 90))%N, ((97 <=? c) && (c <=? 122))%N,
           ((192 <=? c) && (c <=? 255))%N; simpl in *;
    rewrite ?orb_true_r; try reflexivity; discriminate.
Qed.

(** C6 (as the code has it). The relevance scorer works on token sets: the
    tokens of a text are exactly the maximal runs, at least 3 long, of
    characters of the class [A-Za-z] plus the range U+00C0..U+00FF, taken
    from the lowercased text (so they hold no capital when [lower] leaves
    none); such a character is a letter or one of the two signs U+00D7 and
    U+00F7.  The score of two token sets is the size of the intersection
    divided by the size of the union, the divisor being at least 1: it lies
    in [0, 1] and is 0, not an error, when both sets are empty. *)
Theorem C6_relevance_is_jaccard_of_tokens (a b : option pystr) :
  (forall s, Forall (fun c => is_upper c = false) (lower s)) ->
  let A := _tokens lower a in
  let B := _tokens lower b in
  (forall t, t ∈ A <-> is_token_of t (lower (or_empty a)))
  /\ (forall t, t ∈ A -> Forall (fun c => is_upper c = false) t)
  /\ (jaccard A B == inject_Z (Z.of_nat (size (A ∩ B)))
                     / inject_Z (Z.of_nat (Nat.max 1 (size (A ∪ B)))))%Q
  /\ (0 <= jaccard A B <= 1)%Q
  /\ (jaccard ∅ ∅ == 0)%Q
  /\ (forall t, t ∈ A ->
        Forall (fun c => is_alpha c = true \/ c = 215%N \/ c = 247%N) t).
Proof.
  intros Hlow A B.
  assert (HA : forall t, t ∈ A <-> is_token_of t (lower (or_empty a))).
  { intros t. unfold A, _tokens. rewrite elem_of_list_to_set, list_elem_of_In.
    rewrite <- list_elem_of_In. apply findall_spec. }
  split; [exact HA|]. split; [|split; [|split; [|split]]].
  - intros t H. apply HA in H as (_ & _ & pre & post & E & _).
    specialize (Hlow (or_empty a)). rewrite E in Hlow.
    apply Forall_app in Hlow as [_ Hlow]. apply Forall_app in Hlow as [Hlow _].
    exact Hlow.
  - unfold jaccard. rewrite Qmake_Qdiv, Zpos_of_nat_max. reflexivity.
  - apply jaccard_bounds.
  - reflexivity.
  - intros t H. apply HA in H as (_ & Hc & _).
    eapply Forall_impl; [exact Hc|]. intros c Hin. apply in_class_alpha, Hin.
Qed.

(** *** The scan over the recent key moments *)

Lemma Qzero_over (p : positive) : (0 # p == 0)%Q.
Proof. reflexivity. Qed.

Lemma scan_moments_spec (u : gset pystr) (ms : list pystr) (best : pystr) (score : Q) :
  (0 <= score)%Q ->
  let sc m := jaccard u (_tokens lower (Some m)) in
  let res := scan_moments lower u ms best score in
  (res = (best, score) /\ forall m, m ∈ ms -> (sc m <= score)%Q)
  \/ (exists i : nat,
        ms !! i = Some (fst res) /\ snd res = sc (fst res) /\ (score < snd res)%Q
        /\ (forall m, m ∈ ms -> (sc m <= snd res)%Q)
        /\ forall (j : nat) m, (j < i)%nat -> ms !! j = Some m -> (sc m < snd res)%Q).
Proof.
  cbv zeta. revert best score.
  induction ms as [|m ms IH]; intros best score Hs; simpl.
  - left. split; [reflexivity|]. intros m Hm. inversion Hm.
  - set (sc := fun m => jaccard u (_tokens lower (Some m))) in *.
    assert (Hm0 : _tokens lower (Some m) = ∅ -> (sc m == 0)%Q).
    { intros E. unfold sc. rewrite E, jaccard_empty_r. apply Qzero_over. }
    assert (Hstep : forall b' s', (score <= s')%Q -> (sc m <= s')%Q ->
              (b' = best /\ s' = score \/ b' = m /\ s' = sc m /\ (score < s')%Q) ->
              (scan_moments lower u ms b' s' = (best, score)
               /\ forall m', m' ∈ m :: ms -> (sc m' <= score)%Q)
              \/ (exists i : nat,
                    (m :: ms) !! i = Some (fst (scan_moments lower u ms b' s'))
                    /\ snd (scan_moments lower u ms b' s')
                       = sc (fst (scan_moments lower u ms b' s'))
                    /\ (score < snd (scan_moments lower u ms b' s'))%Q
                    /\ (forall m', m' ∈ m :: ms ->
                          (sc m' <= snd (scan_moments lower u ms b' s'))%Q)
                    /\ forall (j : nat) m', (j < i)%nat -> (m :: ms) !! j = Some m' ->
                          (sc m' < snd (scan_moments lower u ms b' s'))%Q)).
    { intros b' s' Hle Hm Hacc.
      assert (Hs' : (0 <= s')%Q) by lra.
      destruct (IH b' s' Hs') as [[E Hall] | (i & Hi & Hsc & Hlt & Hall & Hbefore)].
      - rewrite E. destruct Hacc as [[-> ->] | (-> & -> & Hlt)].
        + left. split; [reflexivity|].
          intros m' Hm'. apply elem_of_cons in Hm' as [->|Hm']; [exact Hm | exact (Hall m' Hm')].
        + right. exists 0%nat. simpl. repeat split; auto.
          * intros m' Hm'. apply elem_of_cons in Hm' as [->|Hm']; [lra | exact (Hall m' Hm')].
          * intros j m' Hj. lia.
      - right. exists (S i). simpl. repeat split; auto.
        + lra.
        + intros m' Hm'. apply elem_of_cons in Hm' as [->|Hm']; [lra | exact (Hall m' Hm')].
        + intros [|j] m' Hj Hl; simpl in Hl.
          * injection Hl as <-. lra.
          * apply (Hbefore j); [lia | exact Hl]. }
    destruct (bool_decide (_tokens lower (Some m) = ∅)) eqn:Ee.
    + apply bool_decide_eq_true in Ee. specialize (Hm0 Ee).
      apply Hstep; [lra | lra | left; auto].
    + fold (sc m). destruct (Qltb score (sc m)) eqn:El.
      * apply Qltb_lt in El. apply Hstep; [lra | lra | right; auto].
      * apply Qltb_ge in El. apply Hstep; [lra | lra | left; auto].
Qed.

(** C7. Only the last 8 key moments are looked at.  Either none of them
    shares a token with the user message, and the result is the empty string
    with score 0; or the result is a moment of that window together with its
    Jaccard score, no moment of the window scores higher, and every moment
    before it in the window scores strictly lower (the earliest of the best
    wins). *)
Theorem C7_pick_relevant_moment (user_msg : option pystr) (cx : Context) :
  let moments := default [] (key_moments cx) in
  let w := last_n 8 moments in
  let sc m := jaccard (_tokens lower user_msg) (_tokens lower (Some m)) in
  let res := _pick_relevant_moment lower user_msg cx in
  (exists older, moments = older ++ w)
  /\ length w = Nat.min 8 (length moments)
  /\ ((res = ([], 0%Q) /\ forall m, m ∈ w -> (sc m == 0)%Q)
      \/ (exists i : nat,
            w !! i = Some (fst res) /\ snd res = sc (fst res) /\ (0 < snd res)%Q
            /\ (forall m, m ∈ w -> (sc m <= snd res)%Q)
            /\ forall (j : nat) m, (j < i)%nat -> w !! j = Some m -> (sc m < snd res)%Q)).
Proof.
  cbv zeta. unfold last_n. repeat split.
  - eexists. symmetry. apply take_drop.
  - rewrite length_drop. lia.
  - unfold _pick_relevant_moment.
    destruct (default [] (key_moments cx)) as [|m0 ms] eqn:Em.
    + left. split; [reflexivity|]. intros m Hm. inversion Hm.
    + fold (@last_n pystr 8 (m0 :: ms)).
      destruct (scan_moments_spec (_tokens lower user_msg) (last_n 8 (m0 :: ms)) [] 0%Q)
        as [[E Hall] | H]; [lra | |].
      * left. split; [exact E|]. intros m Hm. specialize (Hall m Hm).
        pose proof (jaccard_bounds (_tokens lower user_msg) (_tokens lower (Some m))). lra.
      * right. exact H.
Qed.

(** *** One call, seen from one ornament kind *)

Lemma cooldown_decrease (k : Kind) (r : Renderer) :
  cooldown k (_decrease_cooldowns r) = cool (cooldown k r).
Proof. destruct k; reflexivity. Qed.

Lemma last_used_decrease (k : Kind) (r : Renderer) :
  last_used k (_decrease_cooldowns r) = last_used k r.
Proof. destruct k; reflexivity. Qed.

Lemma snippet_inj (k : Kind) (t t' : pystr) : snippet k t = snippet k t' -> t = t'.
Proof.
  destruct k; unfold snippet, past_snippet, colloc_snippet; intros H.
  - apply app_inv_head in H. apply app_inv_head in H. exact H.
  - apply app_inv_head in H. apply app_inv_tail in H. exact H.
Qed.

Lemma snippet_kinds_differ (k k' : Kind) (t t' : pystr) :
  snippet k t = snippet k' t' -> k = k'.
Proof. destruct k, k'; simpl; intros H; try reflexivity; discriminate. Qed.

Lemma use_past_inv (r : Renderer) (c : Call) :
  use_past lower r c = true ->
  let t := fst (_pick_relevant_moment lower (last_message (ctx c)) (ctx c)) in
  t <> [] /\ t <> last_used past r /\ (cooldown past r <= 0)%Q.
Proof.
  unfold use_past.
  destruct (_pick_relevant_moment lower (last_message (ctx c)) (ctx c)) as [t rel].
  intros H. repeat (apply andb_true_iff in H as [H ?]). simpl. repeat split.
  - destruct t; [discriminate | discriminate].
  - apply negb_true_iff, bool_decide_eq_false in H1. exact H1.
  - apply Qleb_le. assumption.
Qed.

Lemma use_colloc_inv (r : Renderer) (c : Call) :
  use_colloc lower r c = true ->
  let t := fst (_pick_collocation lower (lex_sample c) (ctx c)) in
  t <> [] /\ t <> last_used colloc r /\ (cooldown colloc r <= 0)%Q.
Proof.
  unfold use_colloc.
  destruct (_pick_collocation lower (lex_sample c) (ctx c)) as [t rel].
  intros H. repeat (apply andb_true_iff in H as [H ?]). simpl. repeat split.
  - intros E. rewrite E in H. discriminate H.
  - apply negb_true_iff, bool_decide_eq_false in H0. exact H0.
  - apply Qleb_le. assumption.
Qed.

(** Either the call appends no ornament of kind [k], and the kind's ledger
    only decays; or it appends exactly one, which was eligible after the
    decay and differs from the last one used, and the ledger records it. *)
Lemma step_kind (k : Kind) (r : Renderer) (c : Call) :
  let r' := renderer (render_reply lower r c) in
  ((forall t, ~ appended lower k r c t)
   /\ cooldown k r' = cool (cooldown k r)
   /\ last_used k r' = last_used k r)
  \/ (exists t, appended lower k r c t
        /\ (forall t', appended lower k r c t' -> t' = t)
        /\ cooldown k r' = 2%Q
        /\ last_used k r' = t
        /\ t <> last_used k r
        /\ t <> []
        /\ (cool (cooldown k r) <= 0)%Q).
Proof.
  cbv zeta. unfold appended.
  pose proof (render_reply_cases r c) as Hc. cbv zeta in Hc.
  destruct Hc as [[Ho Hr] | [(_ & Hu & Ho & Hr & _) | (_ & Hu & Ho & Hr)]];
    rewrite Ho, Hr.
  - left. rewrite cooldown_decrease, last_used_decrease. repeat split.
    intros t E. apply app_eq_self in E. exact (snippet_nonempty _ _ E).
  - apply use_past_inv in Hu. cbv zeta in Hu. destruct Hu as (Hne & Hlast & Hcd).
    destruct k.
    + right. eexists. split; [reflexivity|]. simpl. repeat split; auto.
      * intros t' E. apply app_inv_head in E. symmetry. exact (snippet_inj past _ _ E).
    + left. simpl. repeat split.
      intros t E. apply app_inv_head in E.
      pose proof (snippet_kinds_differ past colloc _ _ E). discriminate.
  - apply use_colloc_inv in Hu. cbv zeta in Hu. destruct Hu as (Hne & Hlast & Hcd).
    destruct k.
    + left. simpl. repeat split.
      intros t E. apply app_inv_head in E.
      pose proof (snippet_kinds_differ colloc past _ _ E). discriminate.
    + right. eexists. split; [reflexivity|]. simpl. repeat split; auto.
      * intros t' E. apply app_inv_head in E. symmetry. exact (snippet_inj colloc _ _ E).
Qed.

Lemma Qmax0_id (x : Q) : (0 <= x)%Q -> (Qmax 0 x == x)%Q.
Proof. exact (Q.max_r 0 x). Qed.

Lemma cool_nonneg (x : Q) : (0 <= cool x)%Q.
Proof. unfold cool. apply Q.le_max_l. Qed.

Lemma cool_iter (x a : Q) :
  (0 <= a)%Q ->
  (Qmax 0 (cool x - a) == Qmax 0 (x - ((34 # 100) + a)))%Q.
Proof.
  intros Ha. unfold cool.
  pose proof (Q.max_spec 0 (x - (34 # 100))) as S1.
  pose proof (Q.max_spec 0 (Qmax 0 (x - (34 # 100)) - a)) as S2.
  pose proof (Q.max_spec 0 (x - ((34 # 100) + a))) as S3.
  revert S1 S2 S3.
  generalize (Qmax 0 (Qmax 0 (x - (34 # 100)) - a)).
  generalize (Qmax 0 (x - ((34 # 100) + a))).
  generalize (Qmax 0 (x - (34 # 100))).
  intros q q0 q1 [[? ?]|[? ?]] [[? ?]|[? ?]] [[? ?]|[? ?]]; lra.
Qed.

Lemma plain_only_decays (r : Renderer) (c : Call) (k : Kind) :
  plain lower r c ->
  cooldown k (renderer (render_reply lower r c)) = cool (cooldown k r).
Proof.
  intros Hp. destruct (step_kind k r c) as [(_ & H & _) | (t & Ha & _)]; [exact H|].
  unfold plain in Hp. unfold appended in Ha. rewrite Hp in Ha.
  apply app_eq_self in Ha. destruct (snippet_nonempty _ _ Ha).
Qed.

Lemma reachable_nonneg (r : Renderer) (k : Kind) :
  reachable lower r -> (0 <= cooldown k r)%Q.
Proof.
  intros H. induction H as [|r c _ _].
  - destruct k; simpl; lra.
  - destruct (step_kind k r c) as [(_ & -> & _) | (t & _ & _ & -> & _)].
    + apply cool_nonneg.
    + lra.
Qed.

(** C9. Over any sequence of calls on one instance, two consecutive
    ornaments of the same kind never carry the same text: an ornament is
    appended only if its text differs from the last-used text of its kind,
    and appending it makes it the last-used text. *)
Theorem C9_no_immediate_repetition
    (k : Kind) (r : Renderer) (cs : list Call) (ts : list pystr) :
  uses lower k r cs ts ->
  (forall t, head ts = Some t -> t <> last_used k r)
  /\ (forall (i : nat) a b, ts !! i = Some a -> ts !! S i = Some b -> a <> b)
  /\ (forall c t, appended lower k r c t ->
        t <> last_used k r /\ last_used k (renderer (render_reply lower r c)) = t).
Proof.
  intros H.
  assert (Hcall : forall r c t, appended lower k r c t ->
            t <> last_used k r /\ last_used k (renderer (render_reply lower r c)) = t).
  { intros r0 c t Ha.
    destruct (step_kind k r0 c) as [(Hn & _) | (t0 & _ & Hu & _ & Hl & Hd & _)].
    - destruct (Hn t Ha).
    - rewrite (Hu t Ha). auto. }
  assert (Hseq : (forall t, head ts = Some t -> t <> last_used k r)
                 /\ forall (i : nat) a b, ts !! i = Some a -> ts !! S i = Some b -> a <> b).
  { induction H as [r | r c cs t ts Ha _ [IHh IHa] | r c cs ts Hn _ [IHh IHa]].
    - split; [discriminate | intros [|i]; discriminate].
    - destruct (Hcall r c t Ha) as [Hd Hl]. split.
      + intros t' [= <-]. exact Hd.
      + intros [|i] a b Hi Hj; simpl in Hi, Hj.
        * injection Hi as <-. rewrite Hl in IHh. intros E.
          apply (IHh b); [destruct ts; [discriminate | exact Hj] | symmetry; exact E].
        * exact (IHa i a b Hi Hj).
    - split; [|exact IHa].
      intros t Ht. specialize (IHh t Ht).
      destruct (step_kind k r c) as [(_ & _ & <-) | (t0 & Ha & _)]; [exact IHh|].
      destruct (Hn t0 Ha). }
  destruct Hseq as [Hh Ha]. split; [exact Hh | split; [exact Ha | apply Hcall]].
Qed.

(** Every sequence of calls has its list of appended texts. *)
Lemma uses_total (k : Kind) (cs : list Call) (r : Renderer) :
  exists ts, uses lower k r cs ts.
Proof.
  revert r. induction cs as [|c cs IH]; intros r.
  - exists []. apply uses_nil.
  - destruct (IH (renderer (render_reply lower r c))) as [ts Hts].
    destruct (step_kind k r c) as [(Hn & _) | (t & Ha & _)].
    + exists ts. apply uses_miss; assumption.
    + exists (t :: ts). apply uses_hit; assumption.
Qed.

(** The decision recorder runs exactly on the calls that are not vetoed and
    do not end on an accepted past link. *)
Lemma recorder_reached_on_fallthrough (r : Renderer) (c : Call) :
  events (render_reply lower r c)
  = if vetoed c then []
    else if use_past lower (_decrease_cooldowns r) c
            && fits (past_snippet
                       (fst (_pick_relevant_moment lower (last_message (ctx c)) (ctx c))))
                    (_budget_chars (voice c) (ctx c))
         then []
         else record_decision c.
Proof.
  unfold render_reply.
  destruct (vetoed c); [reflexivity|].
  destruct (use_past lower _ c && fits _ _); [reflexivity|].
  destruct (use_colloc lower _ c && fits _ _); reflexivity.
Qed.

End Properties.


Lemma C1_witness :
  get_prefers_long (ctx (demo_call (8 # 10) (Some {| prefers_long := Some (PyBool false) |}) msg_move))
    = PyBool false
  /\ out (render_reply latin1_lower init
            (demo_call (8 # 10) (Some {| prefers_long := Some (PyBool false) |}) msg_move))
     = str "Sure, I can help.".
Proof.
  split; [reflexivity|].
  apply (proj1 (C1_veto_returns_plain_text latin1_lower init
                  (demo_call (8 # 10) (Some {| prefers_long := Some (PyBool false) |}) msg_move))).
  right; right; reflexivity.
Defined.

(** With the same input and no [user_style] at all, the past link is added. *)
Example absent_preference_allows_ornament :
  out (render_reply latin1_lower init (demo_call (8 # 10) None msg_move))
  = str "Sure, I can help." ++ past_snippet (str "your move last week").
Proof. vm_compute. reflexivity. Qed.

Lemma C2_witness :
  out (render_reply latin1_lower init (demo_call (8 # 10) None msg_move))
  = str "Sure, I can help." ++ past_snippet (str "your move last week").
Proof.
  apply (proj2 (proj2 (proj2
           (C2_at_most_one_ornament_past_first latin1_lower init
              (demo_call (8 # 10) None msg_move)))));
    vm_compute; reflexivity.
Defined.

Lemma latin1_lower_no_upper (s : pystr) :
  Forall (fun c => is_upper c = false) (latin1_lower s).
Proof.
  induction s as [|c s IH]; simpl; constructor; [|exact IH].
  unfold is_upper, latin1_lower_char.
  destruct ((65 <=? c) && (c <=? 90) || (192 <=? c) && (c <=? 222) && negb (c =? 215))%N
    eqn:E; [|exact E].
  apply not_true_iff_false. intros H.
  rewrite ?orb_true_iff, ?andb_true_iff, ?negb_true_iff, ?N.leb_le, ?N.eqb_neq in H, E.
  lia.
Qed.

Lemma C6_witness :
  (jaccard (_tokens latin1_lower (Some msg_move)) (_tokens latin1_lower (Some txt_move))
   == inject_Z 3 / inject_Z 7)%Q.
Proof.
  destruct (C6_relevance_is_jaccard_of_tokens latin1_lower (Some msg_move) (Some txt_move)
              latin1_lower_no_upper) as (_ & _ & H & _).
  exact H.
Defined.

Lemma C9_witness :
  uses latin1_lower past init [call_move; call_move] [txt_move]
  /\ txt_move <> last_used past init.
Proof.
  assert (U : uses latin1_lower past init [call_move; call_move] [txt_move]).
  { apply uses_hit; [vm_compute; reflexivity|].
    apply uses_miss; [|apply uses_nil].
    intros t H. unfold appended in H. vm_compute in H. discriminate H. }
  split; [exact U|].
  exact (proj1 (C9_no_immediate_repetition latin1_lower past init _ _ U) txt_move eq_refl).
Defined.

(** The same moment stays the best candidate, but once used it is not
    appended again, also after its cooldown has run out. *)
Example repetition_blocked_after_cooldown :
  let r := run latin1_lower after_move (repeat call_question 6) in
  cooldown past r = 0%Q
  /\ fst (_pick_relevant_moment latin1_lower (last_message (ctx call_move)) (ctx call_move))
     = txt_move
  /\ out (render_reply latin1_lower r call_move) = str "Sure, I can help.".
Proof. vm_compute. repeat split. Qed.

(** C4 (the code at a failing input). The reply carries the rule ["r1"] and
    the memory store works, yet a call that appends the past link, or that is
    vetoed, returns before the decision recorder: nothing is written.  The
    same reply on a call that falls through to the end is recorded. *)
Theorem C4_trace_skipped_on_early_return :
  attached_rule (semantics call_move) = Some (RuleDict [(str "id", PyStr (str "r1"))])
  /\ truthy (rule_id_of (RuleDict [(str "id", PyStr (str "r1"))])) = true
  /\ out (render_reply latin1_lower init call_move)
     = str "Sure, I can help." ++ past_snippet txt_move
  /\ events (render_reply latin1_lower init call_move) = []
  /\ events (render_reply latin1_lower init call_short) = []
  /\ events (render_reply latin1_lower init call_question)
     = [AddMemory (DecisionTrace (PyStr (str "r1")) PyNone
                     [(str "pending_questions_count", PyInt 0)] 0)].
Proof. vm_compute. repeat split. Qed.

(** * Further properties of the renderer *)

Lemma budget_bounds (v : Voice) (cx : Context) : 100 <= _budget_chars v cx <= 240.
Proof. rewrite budget_values. destruct (truthy _), (Qltb _ _); lia. Qed.

Lemma vetoed_false_iff (c : Call) :
  vetoed c = false
  <-> (conf_min <= _confidence (voice c))%Q /\ get_prefers_long (ctx c) <> PyBool false.
Proof.
  unfold vetoed. pose proof (budget_bounds (voice c) (ctx c)) as Hb.
  replace (_budget_chars (voice c) (ctx c) <? 60) with false
    by (symmetry; apply Z.ltb_ge; lia).
  rewrite orb_false_r, orb_false_iff, Qltb_ge. split.
  - intros [Hc Hp]. split; [exact Hc|]. intros E. rewrite E in Hp. discriminate.
  - intros [Hc Hp]. split; [exact Hc|].
    destruct (get_prefers_long (ctx c)) as [|[]| |]; try reflexivity. congruence.
Qed.

Lemma cool_le_0 (x : Q) : (cool x <= 0)%Q <-> (x <= 34 # 100)%Q.
Proof.
  unfold cool. pose proof (Q.max_spec 0 (x - (34 # 100))) as S. revert S.
  generalize (Qmax 0 (x - (34 # 100))). intros q [[? ?]|[? ?]]; split; intros; lra.
Qed.


Lemma length_colloc_snippet (t : pystr) : length (colloc_snippet t) = (length t + 4)%nat.
Proof. unfold colloc_snippet. rewrite !length_app. simpl. lia. Qed.

Lemma nonempty_true {A} (l : list A) : nonempty l = true <-> l <> [].
Proof. destruct l; simpl; split; congruence. Qed.

Section Selection.

Variable lower : pystr -> pystr.

(** The four ways a call can end, with the tests that lead there. *)
Lemma render_reply_paths (r : Renderer) (c : Call) :
  let res := render_reply lower r c in
  let dec := _decorate_with_voice lower (voice c) (base_text (semantics c)) in
  let r1 := _decrease_cooldowns r in
  let budget := _budget_chars (voice c) (ctx c) in
  let past_txt := fst (_pick_relevant_moment lower (last_message (ctx c)) (ctx c)) in
  let colloc_txt := fst (_pick_collocation lower (lex_sample c) (ctx c)) in
  let past_ok := use_past lower r1 c && fits (past_snippet past_txt) budget in
  let colloc_ok := use_colloc lower r1 c && fits (colloc_snippet colloc_txt) budget in
  (vetoed c = true /\ res = {| out := dec; renderer := r1; events := [] |})
  \/ (vetoed c = false /\ past_ok = true
      /\ res = {| out := dec ++ past_snippet past_txt;
                  renderer := mark_used past past_txt r1; events := [] |})
  \/ (vetoed c = false /\ past_ok = false /\ colloc_ok = true
      /\ res = {| out := dec ++ colloc_snippet colloc_txt;
                  renderer := mark_used colloc colloc_txt r1;
                  events := record_decision c |})
  \/ (vetoed c = false /\ past_ok = false /\ colloc_ok = false
      /\ res = {| out := dec; renderer := r1; events := record_decision c |}).
Proof.
  cbv zeta. unfold render_reply.
  destruct (vetoed c); [left; auto|].
  destruct (use_past lower _ c && fits _ _); [right; left; auto|].
  destruct (use_colloc lower _ c && fits _ _); [right; right; left; auto|].
  right; right; right; auto.
Qed.

Lemma use_past_iff (r : Renderer) (c : Call) :
  let pick := _pick_relevant_moment lower (last_message (ctx c)) (ctx c) in
  use_past lower r c = true
  <-> fst pick <> []
      /\ (past_relevance <= snd pick)%Q
      /\ (cooldown past r <= 0)%Q
      /\ fst pick <> last_used past r
      /\ is_direct_question c = false.
Proof.
  cbv zeta. unfold use_past.
  destruct (_pick_relevant_moment lower (last_message (ctx c)) (ctx c)) as [t rel].
  simpl fst; simpl snd.
  rewrite !andb_true_iff, !negb_true_iff, nonempty_true, !Qleb_le.
  unfold pystr_eqb. rewrite bool_decide_eq_false. tauto.
Qed.

Lemma use_colloc_iff (r : Renderer) (c : Call) :
  let pick := _pick_collocation lower (lex_sample c) (ctx c) in
  use_colloc lower r c = true
  <-> fst pick <> []
      /\ (rnd c < p_try (_confidence (voice c)))%Q
      /\ (colloc_relevance <= snd pick)%Q
      /\ (cooldown colloc r <= 0)%Q
      /\ fst pick <> last_used colloc r.
Proof.
  cbv zeta. unfold use_colloc.
  destruct (_pick_collocation lower (lex_sample c) (ctx c)) as [t rel].
  simpl fst; simpl snd.
  rewrite !andb_true_iff, !negb_true_iff, nonempty_true, !Qleb_le, Qltb_lt.
  unfold pystr_eqb. rewrite bool_decide_eq_false. tauto.
Qed.

Lemma fits_iff (snip : pystr) (v : Voice) (cx : Context) :
  fits snip (_budget_chars v cx) = true
  <-> (length snip <= Z.to_nat (_budget_chars v cx))%nat.
Proof.
  unfold fits. pose proof (budget_bounds v cx). rewrite Z.leb_le. lia.
Qed.

Ltac paths r c :=
  let E := fresh "E" in
  destruct (render_reply_paths r c)
    as [(?Hv & E) | [(?Hv & ?Hpast & E) | [(?Hv & ?Hpast & ?Hcol & E)
                                           | (?Hv & ?Hpast & ?Hcol & E)]]];
  cbv zeta in *; rewrite E; clear E; cbn [out renderer events].



(** X3. When the last message holds a question mark, no past link is
    appended, whatever the relevance and the cooldown. *)
Theorem direct_question_blocks_past_link (r : Renderer) (c : Call) (t : pystr) :
  is_direct_question c = true -> ~ appended lower past r c t.
Proof.
  intros Hq. unfold appended. paths r c; intros Ha.
  - apply app_eq_self in Ha. destruct (snippet_nonempty _ _ Ha).
  - apply andb_true_iff in Hpast as [Hu _].
    apply use_past_iff in Hu. cbv zeta in Hu.
    destruct Hu as (_ & _ & _ & _ & Hu). congruence.
  - apply app_inv_head in Ha.
    pose proof (snippet_kinds_differ colloc past _ _ Ha). discriminate.
  - apply app_eq_self in Ha. destruct (snippet_nonempty _ _ Ha).
Qed.

(** X4. The reply is never longer than the decorated base text plus the
    ornament budget, which is at most 240 characters. *)
Theorem ornament_within_budget (r : Renderer) (c : Call) :
  (length (out (render_reply lower r c))
   <= length (_decorate_with_voice lower (voice c) (base_text (semantics c)))
      + Z.to_nat (_budget_chars (voice c) (ctx c)))%nat
  /\ (Z.to_nat (_budget_chars (voice c) (ctx c)) <= 240)%nat.
Proof.
  pose proof (budget_bounds (voice c) (ctx c)) as Hb. split; [|lia].
  paths r c.
  - lia.
  - apply andb_true_iff in Hpast as [_ Hf]. apply fits_iff in Hf.
    rewrite length_app. lia.
  - apply andb_true_iff in Hcol as [_ Hf]. apply fits_iff in Hf.
    rewrite length_app. lia.
  - lia.
Qed.

(** *** Cooldowns over several calls *)

Lemma cool_lower_bound (x : Q) : (x - (34 # 100) <= cool x)%Q.
Proof. unfold cool. apply Q.le_max_r. Qed.

Lemma cool_upper_bound (x : Q) : (0 <= x -> cool x <= x)%Q.
Proof.
  intros Hx. unfold cool. pose proof (Q.max_spec 0 (x - (34 # 100))) as S. revert S.
  generalize (Qmax 0 (x - (34 # 100))). intros q [[? ?]|[? ?]]; lra.
Qed.

Lemma inject_length_cons {A} (c : A) (cs : list A) :
  (inject_Z (Z.of_nat (length (c :: cs))) == inject_Z (Z.of_nat (length cs)) + 1)%Q.
Proof.
  change (length (c :: cs)) with (S (length cs)).
  rewrite Nat2Z.inj_succ. unfold Z.succ. rewrite inject_Z_plus. reflexivity.
Qed.

Lemma inject_length_nonneg {A} (cs : list A) : (0 <= inject_Z (Z.of_nat (length cs)))%Q.
Proof. change 0%Q with (inject_Z 0). rewrite <- Zle_Qle. lia. Qed.

(** While the level of a kind exceeds 0.34 times the number of calls to
    come, none of these calls appends an ornament of that kind. *)
Lemma hot_kind_stays_unused (k : Kind) (r : Renderer) (cs : list Call) (ts : list pystr) :
  uses lower k r cs ts ->
  ((34 # 100) * inject_Z (Z.of_nat (length cs)) < cooldown k r)%Q ->
  ts = [].
Proof.
  intros H. induction H as [r | r c cs t ts Ha _ _ | r c cs ts Hn _ IH]; intros Hot.
  - reflexivity.
  - exfalso.
    destruct (step_kind lower k r c) as [(Hn & _) | (t0 & _ & _ & _ & _ & _ & _ & Hd)].
    + exact (Hn t Ha).
    + apply cool_le_0 in Hd. rewrite inject_length_cons in Hot.
      pose proof (inject_length_nonneg cs) as Hl. revert Hot Hl.
      generalize (inject_Z (Z.of_nat (length cs))). intros n Hot Hl. nra.
  - apply IH.
    destruct (step_kind lower k r c) as [(_ & -> & _) | (t0 & Ha & _)];
      [|destruct (Hn t0 Ha)].
    pose proof (cool_lower_bound (cooldown k r)) as Hc.
    rewrite inject_length_cons in Hot. revert Hot Hc.
    generalize (inject_Z (Z.of_nat (length cs))) (cool (cooldown k r)).
    intros n q Hot Hc. lra.
Qed.

Lemma unused_kind_level (k : Kind) (r : Renderer) (cs : list Call) :
  uses lower k r cs [] ->
  (0 <= cooldown k r)%Q ->
  (cooldown k (run lower r cs)
   == Qmax 0 (cooldown k r - (34 # 100) * inject_Z (Z.of_nat (length cs))))%Q.
Proof.
  intros H. remember [] as ts eqn:Ets.
  induction H as [r | r c cs t ts Ha _ _ | r c cs ts Hn _ IH]; intros H0.
  - simpl. change (inject_Z (Z.of_nat 0)) with 0%Q. symmetry.
    etransitivity; [apply Qmax0_id; lra | lra].
  - discriminate.
  - simpl run.
    destruct (step_kind lower k r c) as [(_ & Hc & _) | (t0 & Ha & _)];
      [|destruct (Hn t0 Ha)].
    rewrite (IH Ets) by (rewrite Hc; apply cool_nonneg).
    rewrite Hc, cool_iter by
      (apply Qmult_le_0_compat; [lra | apply inject_length_nonneg]).
    apply Q.max_compat; [reflexivity|].
    rewrite inject_length_cons.
    generalize (inject_Z (Z.of_nat (length cs))). intros n. lra.
Qed.

(** X6. After an ornament of kind [k] is appended, none of the next 5
    calls appends one of that kind; and after 5 such calls the level has
    come down to 0.34 or less, so that the cooldown no longer stands in the
    way at the sixth. *)
Theorem used_kind_rests_five_calls
    (k : Kind) (r : Renderer) (c : Call) (t : pystr) (cs : list Call) (ts : list pystr) :
  appended lower k r c t ->
  uses lower k (renderer (render_reply lower r c)) cs ts ->
  (length cs <= 5)%nat ->
  ts = []
  /\ (length cs = 5%nat ->
      (cooldown k (run lower (renderer (render_reply lower r c)) cs) <= 34 # 100)%Q).
Proof.
  intros Ha Hu Hlen.
  assert (H2 : cooldown k (renderer (render_reply lower r c)) = 2%Q).
  { destruct (step_kind lower k r c) as [(Hn & _) | (t0 & _ & _ & H & _)];
      [destruct (Hn t Ha) | exact H]. }
  assert (Hts : ts = []).
  { apply (hot_kind_stays_unused k _ cs ts Hu). rewrite H2.
    assert (Hl : (inject_Z (Z.of_nat (length cs)) <= 5)%Q).
    { change 5%Q with (inject_Z 5). rewrite <- Zle_Qle. lia. }
    revert Hl. generalize (inject_Z (Z.of_nat (length cs))). intros n Hl. lra. }
  split; [exact Hts|]. intros H5. subst ts.
  rewrite (unused_kind_level k _ cs Hu) by (rewrite H2; lra).
  rewrite H2, H5. vm_compute. discriminate.
Qed.

(** X7. On every state an instance can reach, a level is at most 2.0, and
    a kind whose level is above 0 has a non-empty last-used text. *)
Theorem reachable_ledger_invariant (k : Kind) (r : Renderer) :
  reachable lower r ->
  (cooldown k r <= 2)%Q /\ ((0 < cooldown k r)%Q -> last_used k r <> []).
Proof.
  intros H. induction H as [|r c Hr [IH1 IH2]].
  - split; [destruct k; simpl; lra|]. destruct k; simpl; lra.
  - pose proof (reachable_nonneg lower r k Hr) as H0.
    destruct (step_kind lower k r c)
      as [(_ & -> & ->) | (t & _ & _ & -> & -> & _ & Hne & _)].
    + pose proof (cool_upper_bound (cooldown k r) H0) as Hu. split; [lra|].
      intros Hpos. apply IH2.
      destruct (Qlt_le_dec 0 (cooldown k r)) as [Hlt|Hle]; [exact Hlt|].
      assert (E : (cooldown k r == 0)%Q) by lra.
      exfalso. revert Hpos Hu H0 Hle. generalize (cool (cooldown k r)).
      intros q. lra.
    + split; [lra | intros _; exact Hne].
Qed.

(** *** Missing candidates and defaults *)

Lemma pick_collocation_fst (cand : option pystr) (cx : Context) :
  fst (_pick_collocation lower cand cx) = or_empty cand.
Proof.
  unfold _pick_collocation. destruct (or_empty cand); reflexivity.
Qed.

Lemma pick_collocation_no_topics (cand : option pystr) (cx : Context) :
  default [] (topics cx) = [] -> (snd (_pick_collocation lower cand cx) == 0)%Q.
Proof.
  intros Ht. unfold _pick_collocation. rewrite Ht.
  destruct (nonempty (or_empty cand)); [|reflexivity].
  simpl snd. change (list_to_set []) with (∅ : gset pystr).
  rewrite intersection_empty_r_L, size_empty. reflexivity.
Qed.

Lemma jaccard_empty_l (b : gset pystr) : (jaccard ∅ b == 0)%Q.
Proof.
  unfold jaccard. rewrite intersection_empty_l_L, size_empty. reflexivity.
Qed.

Lemma pick_moment_no_tokens (user_msg : option pystr) (cx : Context) :
  _tokens lower user_msg = ∅ ->
  _pick_relevant_moment lower user_msg cx = ([], 0%Q).
Proof.
  intros Hu. unfold _pick_relevant_moment. rewrite Hu.
  destruct (default [] (key_moments cx)) as [|m0 ms]; [reflexivity|].
  destruct (scan_moments_spec lower ∅ (last_n 8 (m0 :: ms)) [] 0%Q)
    as [[E _] | (i & _ & Hs & Hlt & _)]; [lra | exact E |].
  exfalso. rewrite Hs in Hlt. rewrite jaccard_empty_l in Hlt. lra.
Qed.

(** X8. With no key moment (key absent or empty list) and no sample from
    the lexicon ([None] or empty), the reply is the decorated base text and
    the ledger only decays. *)
Theorem no_candidates_plain_reply (r : Renderer) (c : Call) :
  default [] (key_moments (ctx c)) = [] ->
  or_empty (lex_sample c) = [] ->
  out (render_reply lower r c)
    = _decorate_with_voice lower (voice c) (base_text (semantics c))
  /\ renderer (render_reply lower r c) = _decrease_cooldowns r.
Proof.
  intros Hm Hs. paths r c.
  - auto.
  - exfalso. apply andb_true_iff in Hpast as [Hu _].
    apply use_past_iff in Hu. cbv zeta in Hu. destruct Hu as [Hu _].
    apply Hu. unfold _pick_relevant_moment. rewrite Hm. reflexivity.
  - exfalso. apply andb_true_iff in Hcol as [Hu _].
    apply use_colloc_iff in Hu. cbv zeta in Hu. destruct Hu as [Hu _].
    apply Hu. rewrite pick_collocation_fst. exact Hs.
  - auto.
Qed.

(** X9. When the policy cannot be reached, the confidence is 0.6, which
    passes the confidence gate: the call is vetoed only by [prefers_long]
    being [False]. *)
Theorem default_confidence_passes_gate (c : Call) :
  policy_confidence (voice c) = None ->
  _confidence (voice c) = (6 # 10)%Q
  /\ vetoed c = is_False (get_prefers_long (ctx c)).
Proof.
  intros Hp. unfold vetoed, _confidence. rewrite Hp. split; [reflexivity|].
  pose proof (budget_bounds (voice c) (ctx c)) as Hb.
  replace (_budget_chars (voice c) (ctx c) <? 60) with false
    by (symmetry; apply Z.ltb_ge; lia).
  reflexivity.
Qed.

(** X10. The relevance of a collocation is the share of its own tokens
    found among the topics: it lies in [0, 1], the candidate is returned as
    sampled ([None] as the empty string), and without topics it is 0. *)
Theorem collocation_relevance_bounds (cand : option pystr) (cx : Context) :
  let pick := _pick_collocation lower cand cx in
  fst pick = or_empty cand
  /\ (0 <= snd pick <= 1)%Q
  /\ (or_empty cand = [] -> snd pick = 0%Q)
  /\ (default [] (topics cx) = [] -> (snd pick == 0)%Q).
Proof.
  cbv zeta. split; [apply pick_collocation_fst|]. split; [|split].
  - unfold _pick_collocation. destruct (nonempty (or_empty cand)); simpl snd; [|lra].
    apply ratio_bounds. apply subseteq_size. apply intersection_subseteq_l.
  - intros H. unfold _pick_collocation. rewrite H. reflexivity.
  - apply pick_collocation_no_topics.
Qed.


(** X12. When the last message has no token (absent, empty, or only words
    shorter than 3 letters), no moment is picked and no past link is
    appended. *)
Theorem message_without_tokens_no_past_link (r : Renderer) (c : Call) (t : pystr) :
  _tokens lower (last_message (ctx c)) = ∅ ->
  _pick_relevant_moment lower (last_message (ctx c)) (ctx c) = ([], 0%Q)
  /\ ~ appended lower past r c t.
Proof.
  intros Hu. pose proof (pick_moment_no_tokens _ (ctx c) Hu) as Hp.
  split; [exact Hp|]. unfold appended. paths r c; intros Ha.
  - apply app_eq_self in Ha. destruct (snippet_nonempty _ _ Ha).
  - apply andb_true_iff in Hpast as [Hu' _].
    apply use_past_iff in Hu'. cbv zeta in Hu'. destruct Hu' as [Hne _].
    apply Hne. rewrite Hp. reflexivity.
  - apply app_inv_head in Ha.
    pose proof (snippet_kinds_differ colloc past _ _ Ha). discriminate.
  - apply app_eq_self in Ha. destruct (snippet_nonempty _ _ Ha).
Qed.

(** *** Voice decoration *)

Lemma endswith_bang_greeting (t : pystr) :
  endswith (str "!") (greeting ++ t) = endswith (str "!") t.
Proof.
  unfold endswith. rewrite rev_app_distr.
  destruct (rev t) as [|x l]; reflexivity.
Qed.

(** X13. The decorations are independent of one another: the result is the
    text, preceded by the greeting when the formality exceeds 0.75 and the
    text does not already start with "bonjour" or "bonsoir" (in any case),
    followed by the closing remark when the warmth exceeds 0.75 and the text
    does not end with "!", the whole preceded by the emoji marker when the
    emoji trait exceeds 0.6.  At most 38 characters are added. *)
Theorem decoration_parts (v : Voice) (t : pystr) :
  let greet :=
    Qltb (75 # 100) (default (4 # 10) (formality (style v)))
    && negb (startswith (str "bonjour") (lower t) || startswith (str "bonsoir") (lower t)) in
  let warm :=
    Qltb (75 # 100) (default (6 # 10) (warmth (style v)))
    && negb (endswith (str "!") t) in
  let emo := Qltb (6 # 10) (default (2 # 10) (emoji (style v))) in
  _decorate_with_voice lower v t
  = (if emo then emoji_marker else [])
    ++ (if greet then greeting else [])
    ++ t
    ++ (if warm then warm_closing else [])
  /\ (length t <= length (_decorate_with_voice lower v t) <= length t + 38)%nat.
Proof.
  cbv zeta.
  assert (E : _decorate_with_voice lower v t
    = (if Qltb (6 # 10) (default (2 # 10) (emoji (style v))) then emoji_marker else [])
      ++ (if Qltb (75 # 100) (default (4 # 10) (formality (style v)))
             && negb (startswith (str "bonjour") (lower t)
                      || startswith (str "bonsoir") (lower t))
          then greeting else [])
      ++ t
      ++ (if Qltb (75 # 100) (default (6 # 10) (warmth (style v)))
             && negb (endswith (str "!") t)
          then warm_closing else [])).
  { unfold _decorate_with_voice.
    destruct (Qltb (75 # 100) (default (4 # 10) (formality (style v)))
              && negb (startswith (str "bonjour") (lower t)
                       || startswith (str "bonsoir") (lower t))).
    - rewrite endswith_bang_greeting.
      destruct (Qltb (75 # 100) (default (6 # 10) (warmth (style v)))
                && negb (endswith (str "!") t)),
               (Qltb (6 # 10) (default (2 # 10) (emoji (style v))));
        simpl; rewrite <- ?app_assoc, ?app_nil_r; reflexivity.
    - destruct (Qltb (75 # 100) (default (6 # 10) (warmth (style v)))
                && negb (endswith (str "!") t)),
               (Qltb (6 # 10) (default (2 # 10) (emoji (style v))));
        simpl; rewrite <- ?app_assoc, ?app_nil_r; reflexivity. }
  split; [exact E|]. rewrite E.
  destruct (Qltb (6 # 10) _), (Qltb (75 # 100) _ && negb (_ || _)),
           (Qltb (75 # 100) _ && negb (endswith _ _));
    rewrite !length_app; simpl; lia.
Qed.

(** *** The recorder does not touch the reply *)

Lemma decorate_style_only (v1 v2 : Voice) (t : pystr) :
  style v1 = style v2 -> _decorate_with_voice lower v1 t = _decorate_with_voice lower v2 t.
Proof. intros H. unfold _decorate_with_voice. rewrite H. reflexivity. Qed.

(** X14. The reply and the ledger do not depend on the attached rules, on
    the memory store or on the clock: two calls that agree on the text, the
    context, the voice style, the policy confidence, the lexicon sample and
    the random draw give the same text and the same ledger. *)
Theorem reply_independent_of_recorder (r : Renderer) (c1 c2 : Call) :
  text (semantics c1) = text (semantics c2) ->
  ctx c1 = ctx c2 ->
  style (voice c1) = style (voice c2) ->
  policy_confidence (voice c1) = policy_confidence (voice c2) ->
  lex_sample c1 = lex_sample c2 ->
  rnd c1 = rnd c2 ->
  out (render_reply lower r c1) = out (render_reply lower r c2)
  /\ renderer (render_reply lower r c1) = renderer (render_reply lower r c2).
Proof.
  intros Ht Hc Hs Hp Hl Hr.
  assert (Hb : base_text (semantics c1) = base_text (semantics c2)).
  { unfold base_text. rewrite Ht. reflexivity. }
  assert (Hbud : _budget_chars (voice c1) (ctx c1) = _budget_chars (voice c2) (ctx c2)).
  { unfold _budget_chars. rewrite Hc, Hs. reflexivity. }
  assert (Hconf : _confidence (voice c1) = _confidence (voice c2)).
  { unfold _confidence. rewrite Hp. reflexivity. }
  assert (Hv : vetoed c1 = vetoed c2).
  { unfold vetoed. rewrite Hconf, Hbud, Hc. reflexivity. }
  assert (Hup : forall r', use_past lower r' c1 = use_past lower r' c2).
  { intros r'. unfold use_past, is_direct_question. rewrite Hc. reflexivity. }
  assert (Huc : forall r', use_colloc lower r' c1 = use_colloc lower r' c2).
  { intros r'. unfold use_colloc. rewrite Hc, Hl, Hr, Hconf. reflexivity. }
  unfold render_reply.
  rewrite Hv, Hup, Huc, Hb, Hbud, Hc, Hl, (decorate_style_only _ _ _ Hs).
  destruct (vetoed c2); [split; reflexivity|].
  destruct (use_past lower _ c2 && fits _ _); [split; reflexivity|].
  destruct (use_colloc lower _ c2 && fits _ _); split; reflexivity.
Qed.

End Selection.

(** ** The decision recorder *)


(** ** Tokens and similarity *)

Lemma findall_from_split (pre rest run : pystr) (x : N) :
  in_class x = false ->
  findall_from run (pre ++ x :: rest) = findall_from run pre ++ findall_from [] rest.
Proof.
  intros Hx. revert run. induction pre as [|c pre IH]; intros run; simpl.
  - rewrite Hx. reflexivity.
  - destruct (in_class c); [apply IH|].
    rewrite IH. apply app_assoc.
Qed.

(** X16. A character outside the class separates the matches: the matches
    of [pre + x + rest] are those of [pre] followed by those of [rest]; and a
    string of fewer than 3 characters has no match. *)
Theorem findall_splits_at_separator (pre rest : pystr) (x : N) :
  in_class x = false ->
  findall (pre ++ x :: rest) = findall pre ++ findall rest.
Proof. intros Hx. apply findall_from_split, Hx. Qed.

Lemma findall_from_short (s run : pystr) :
  (length run + length s < 3)%nat -> findall_from run s = [].
Proof.
  revert run. induction s as [|c s IH]; intros run H; simpl in *.
  - unfold emit. destruct (Nat.leb_spec 3 (length run)); [lia | reflexivity].
  - destruct (in_class c).
    + apply IH. rewrite length_app. simpl. lia.
    + rewrite IH by (simpl; lia).
      unfold emit. destruct (Nat.leb_spec 3 (length run)); [lia | reflexivity].
Qed.

(** X17. A text of fewer than 3 characters after lowercasing has no token. *)
Theorem short_text_has_no_token (lower : pystr -> pystr) (s : option pystr) :
  (length (lower (or_empty s)) < 3)%nat -> _tokens lower s = ∅.
Proof.
  intros H. unfold _tokens, findall. rewrite findall_from_short by (simpl; lia).
  reflexivity.
Qed.

(** X18. The similarity is symmetric, it is 1 for a non-empty token set
    against itself, and it is 0 exactly when the two sets share no token. *)
Theorem jaccard_symmetric_reflexive_disjoint (a b : gset pystr) :
  jaccard a b = jaccard b a
  /\ (a <> ∅ -> (jaccard a a == 1)%Q)
  /\ ((jaccard a b == 0)%Q <-> a ∩ b = ∅).
Proof.
  split; [|split].
  - unfold jaccard.
    rewrite (comm_L (∩) a b), (comm_L (∪) a b). reflexivity.
  - intros Ha. unfold jaccard. rewrite intersection_idemp_L, union_idemp_L.
    assert (Hs : size a <> 0%nat).
    { intros E. apply size_empty_iff in E. apply Ha. apply leibniz_equiv, E. }
    unfold Qeq. simpl. rewrite Zpos_of_nat_max. lia.
  - unfold jaccard, Qeq. simpl. rewrite Z.mul_1_r. split.
    + intros H. apply leibniz_equiv, size_empty_iff. lia.
    + intros ->. rewrite size_empty. reflexivity.
Qed.

(** ** The base text *)

Lemma lstrip_head (s : pystr) (x : N) : head (lstrip s) = Some x -> is_space x = false.
Proof.
  induction s as [|c s IH]; simpl; [discriminate|].
  destruct (is_space c) eqn:E; [exact IH|].
  simpl. intros [= <-]. exact E.
Qed.

Lemma lstrip_suffix (s : pystr) :
  exists k, s = k ++ lstrip s /\ forallb is_space k = true.
Proof.
  induction s as [|c s (k & IH & Hk)]; simpl.
  - exists []. split; reflexivity.
  - destruct (is_space c) eqn:E.
    + exists (c :: k). simpl. rewrite <- IH, E, Hk. split; reflexivity.
    + exists []. split; reflexivity.
Qed.

Lemma head_rev {A} (l : list A) : head (rev l) = last l.
Proof.
  induction l as [|a l IH] using rev_ind; [reflexivity|].
  rewrite rev_app_distr, last_snoc. reflexivity.
Qed.

Lemma strip_ends (s : pystr) (x : N) :
  head (strip s) = Some x \/ last (strip s) = Some x -> is_space x = false.
Proof.
  unfold strip. intros [H|H].
  - rewrite head_rev in H.
    destruct (lstrip_suffix (rev (lstrip s))) as (k & Hk & _).
    assert (Hl : last (rev (lstrip s)) = Some x).
    { rewrite Hk. rewrite last_app, H. reflexivity. }
    rewrite <- head_rev, rev_involutive in Hl. exact (lstrip_head s x Hl).
  - rewrite <- head_rev, rev_involutive in H. exact (lstrip_head _ x H).
Qed.

Lemma strip_decompose (s : pystr) :
  exists pre suf, s = pre ++ strip s ++ suf
    /\ forallb is_space pre = true /\ forallb is_space suf = true.
Proof.
  destruct (lstrip_suffix s) as (k1 & H1 & Hk1).
  destruct (lstrip_suffix (rev (lstrip s))) as (k2 & H2 & Hk2).
  exists k1, (rev k2). unfold strip. split; [|split; [exact Hk1|]].
  - rewrite <- rev_app_distr, <- H2, rev_involutive. exact H1.
  - rewrite forallb_rev. exact Hk2.
Qed.

(** X19. The base text of a reply is never empty and neither starts nor
    ends with a white-space character; it is the fallback sentence, or the
    [text] of the semantics without the white space around it. *)
Theorem base_text_is_trimmed (sem : Semantics) :
  base_text sem <> []
  /\ (forall x, head (base_text sem) = Some x -> is_space x = false)
  /\ (forall x, last (base_text sem) = Some x -> is_space x = false)
  /\ (base_text sem = fallback_text
      \/ exists pre suf, or_empty (text sem) = pre ++ base_text sem ++ suf
           /\ forallb is_space pre = true /\ forallb is_space suf = true).
Proof.
  split; [apply base_text_nonempty|].
  unfold base_text.
  destruct (nonempty (strip (or_empty (text sem)))) eqn:E.
  - split; [|split].
    + intros x H. apply (strip_ends (or_empty (text sem)) x). left. exact H.
    + intros x H. apply (strip_ends (or_empty (text sem)) x). right. exact H.
    + right. apply strip_decompose.
  - split; [|split].
    + intros x [= <-]. reflexivity.
    + intros x H. vm_compute in H. injection H as <-. reflexivity.
    + left. reflexivity.
Qed.

(** ** The properties above on sample calls *)

Lemma direct_question_witness :
  ~ appended latin1_lower past init call_question txt_move.
Proof.
  apply (direct_question_blocks_past_link latin1_lower init call_question txt_move).
  reflexivity.
Defined.

Lemma five_question_calls_leave_past_unused :
  uses latin1_lower past after_move (repeat call_question 5) [].
Proof.
  simpl repeat.
  repeat (apply uses_miss;
          [intros t H; unfold appended in H; vm_compute in H; discriminate H|]).
  apply uses_nil.
Defined.

Lemma used_kind_rests_witness :
  appended latin1_lower past init call_move txt_move
  /\ (cooldown past (run latin1_lower after_move (repeat call_question 5)) <= 34 # 100)%Q.
Proof.
  assert (Ha : appended latin1_lower past init call_move txt_move)
    by (vm_compute; reflexivity).
  split; [exact Ha|].
  apply (used_kind_rests_five_calls latin1_lower past init call_move txt_move
           (repeat call_question 5) [] Ha five_question_calls_leave_past_unused).
  - simpl. lia.
  - reflexivity.
Defined.

Lemma reachable_ledger_witness :
  (cooldown past after_move <= 2)%Q
  /\ ((0 < cooldown past after_move)%Q -> last_used past after_move <> []).
Proof.
  apply (reachable_ledger_invariant latin1_lower past after_move).
  unfold after_move. apply reach_call, reach_init.
Defined.

Lemma no_candidates_witness :
  out (render_reply latin1_lower init call_bare)
    = _decorate_with_voice latin1_lower (voice call_bare) (base_text (semantics call_bare))
  /\ renderer (render_reply latin1_lower init call_bare) = _decrease_cooldowns init.
Proof.
  apply (no_candidates_plain_reply latin1_lower init call_bare); reflexivity.
Defined.

Lemma default_confidence_witness :
  _confidence (voice call_bare) = (6 # 10)%Q
  /\ vetoed call_bare = is_False (get_prefers_long (ctx call_bare)).
Proof.
  apply (default_confidence_passes_gate call_bare). reflexivity.
Defined.


Lemma message_without_tokens_witness :
  _pick_relevant_moment latin1_lower (last_message (ctx call_ok)) (ctx call_ok) = ([], 0%Q)
  /\ ~ appended latin1_lower past init call_ok txt_move.
Proof.
  apply (message_without_tokens_no_past_link latin1_lower init call_ok txt_move).
  vm_compute. reflexivity.
Defined.

Lemma reply_independent_witness :
  out (render_reply latin1_lower init call_move)
    = out (render_reply latin1_lower init call_move_untraced)
  /\ renderer (render_reply latin1_lower init call_move)
     = renderer (render_reply latin1_lower init call_move_untraced).
Proof.
  apply (reply_independent_of_recorder latin1_lower init call_move call_move_untraced);
    reflexivity.
Defined.

Lemma findall_splits_witness :
  findall (str "your move" ++ 32%N :: str "last week")
  = findall (str "your move") ++ findall (str "last week").
Proof.
  apply (findall_splits_at_separator (str "your move") (str "last week") 32%N).
  reflexivity.
Defined.

Lemma short_text_witness : _tokens latin1_lower (Some (str "ok")) = ∅.
Proof.
  apply (short_text_has_no_token latin1_lower (Some (str "ok"))). simpl. lia.
Defined.

(** * Double precision: lines 54 and 123 as the code computes them *)

Lemma nearest_even_error (n : Z) (d : positive) :
  2 * Z.abs (nearest_even n d * Zpos d - n) <= Zpos d.
Proof.
  unfold nearest_even.
  pose proof (Z.div_mod n (Zpos d) ltac:(discriminate)) as Hdm.
  pose proof (Z.mod_pos_bound n (Zpos d) ltac:(reflexivity)) as Hr.
  set (q := n / Zpos d) in *. set (r := n mod Zpos d) in *.
  assert (Hq1 : (q + 1) * Zpos d = Zpos d * q + Zpos d) by ring.
  assert (Hq0 : q * Zpos d = Zpos d * q) by ring.
  destruct (Z.compare_spec (2 * r) (Zpos d)) as [E|E|E];
    [destruct (Z.even q)| |]; rewrite ?Hq1, ?Hq0; lia.
Qed.

Lemma pow2_nonneg (k : Z) : 0 <= k -> Zpos (pow2 k) = 2 ^ k.
Proof.
  intros Hk. unfold pow2. apply Z2Pos.id. apply Z.pow_pos_nonneg; lia.
Qed.

Lemma pow2_neg (k : Z) : k < 0 -> pow2 k = 1%positive.
Proof. intros Hk. unfold pow2. rewrite Z.pow_neg_r by lia. reflexivity. Qed.

(** Below 2 the spacing of the doubles is at most [2^-52]: rounding moves a
    value by at most [2^-53]. *)
Lemma fl64_pos_error (n d : positive) :
  Zpos n < 2 * Zpos d ->
  (Qabs (fl64_pos n d - (Zpos n # d)) <= 1 # pow2 53)%Q.
Proof.
  intros Hlt. unfold fl64_pos.
  set (k0 := 52 - (Z.log2 (Zpos n) - Z.log2 (Zpos d))).
  assert (Hk0 : 51 <= k0).
  { assert (H : Z.log2 (Zpos n) <= Z.log2 (2 * Zpos d)) by (apply Z.log2_le_mono; lia).
    rewrite Z.log2_double in H by lia. unfold k0. lia. }
  set (k := if _ <? _ then k0 + 1 else k0).
  assert (Hk : 52 <= k).
  { unfold k.
    destruct (Z.ltb_spec (Zpos n * Zpos (pow2 k0)) (2 ^ 52 * Zpos (d * pow2 (- k0))))
      as [H|H]; [lia|].
    destruct (Z.eq_dec k0 51) as [E|E]; [|lia]. exfalso.
    rewrite E in H. rewrite pow2_neg in H by lia. rewrite pow2_nonneg in H by lia.
    rewrite Pos.mul_1_r in H. lia. }
  clearbody k. clear k0 Hk0.
  rewrite (pow2_neg (- k)) by lia. rewrite Pos.mul_1_r, Z.mul_1_r.
  pose proof (nearest_even_error (Zpos n * Zpos (pow2 k)) d) as He.
  set (m := nearest_even (Zpos n * Zpos (pow2 k)) d) in *.
  assert (HP : 2 ^ 52 <= Zpos (pow2 k)).
  { rewrite pow2_nonneg by lia. apply Z.pow_le_mono_r; lia. }
  unfold Qle, Qabs, Qminus, Qplus, Qopp. cbn [Qnum Qden].
  rewrite (pow2_nonneg 53) by lia.
  rewrite Z.mul_1_l, Pos2Z.inj_mul.
  set (P := Zpos (pow2 k)) in *.
  replace (m * Zpos d + - Zpos n * P) with (m * Zpos d - Zpos n * P) by ring.
  assert (0 <= Z.abs (m * Zpos d - Zpos n * P)) by apply Z.abs_nonneg.
  nia.
Qed.

Lemma fl64_error (x : Q) :
  (Qabs x < 2)%Q -> (Qabs (fl64 x - x) <= 1 # 9007199254740992)%Q.
Proof.
  change 9007199254740992%positive with (pow2 53).
  destruct x as [[|n|n] d]; intros Hx; unfold fl64; cbn [Qnum Qden].
  - unfold Qle. simpl. lia.
  - apply fl64_pos_error. unfold Qlt, Qabs in Hx. simpl in Hx. lia.
  - assert (H : Zpos n < 2 * Zpos d) by (unfold Qlt, Qabs in Hx; simpl in Hx; lia).
    pose proof (fl64_pos_error n d H) as He.
    change (Z.neg n # d) with (- (Zpos n # d))%Q.
    assert (E : (- fl64_pos n d - - (Zpos n # d) == - (fl64_pos n d - (Zpos n # d)))%Q)
      by ring.
    rewrite E, Qabs_opp. exact He.
Qed.

Lemma fl64_error_bounds (x : Q) :
  (-2 < x < 2)%Q ->
  (x - (1 # 9007199254740992) <= fl64 x <= x + (1 # 9007199254740992))%Q.
Proof.
  intros Hx. pose proof (fl64_error x) as H.
  assert (Ha : (Qabs x < 2)%Q) by (apply Qabs_Qlt_condition; lra).
  apply H, Qabs_Qle_condition in Ha. lra.
Qed.

(** The double literals of lines 26, 54 and 123. *)
Lemma literal_034 : (fl64 (34 # 100) == 6124895493223875 # 18014398509481984)%Q.
Proof. vm_compute. reflexivity. Qed.

Lemma literal_035 : (fl64 chance_colloc == 3152519739159347 # 9007199254740992)%Q.
Proof. vm_compute. reflexivity. Qed.

Lemma literal_06 : (fl64 (6 # 10) == 5404319552844595 # 9007199254740992)%Q.
Proof. vm_compute. reflexivity. Qed.

(** [fl64] gives what the IEEE operations of the Standard Library give, here
    on [2.0 - 0.34] and on line 123 at confidence 0.75. *)
Example fl64_agrees_with_SFsub :
  SF2Q (SFsub 53 1024 (S754_finite false 4503599627370496 (-51))
                      (S754_finite false 6124895493223875 (-54)))
  = cool64 2.
Proof. vm_compute. reflexivity. Qed.

Example fl64_agrees_with_SFmul_SFadd :
  SF2Q (SFmul 53 1024 (S754_finite false 3152519739159347 (-53))
          (SFadd 53 1024 (S754_finite false 5404319552844595 (-53))
             (SFmul 53 1024 (S754_finite false 5404319552844595 (-53))
                            (S754_finite false 6755399441055744 (-53)))))
  = p_try (3 # 4).
Proof. vm_compute. reflexivity. Qed.

(** Line 123 is within [2^-51] of the exact [0.35 * (0.6 + 0.6 * conf)]. *)
Lemma p_try_close (conf : Q) :
  (0 <= conf <= 1)%Q ->
  (Qabs (p_try conf - (35 # 100) * ((6 # 10) + (6 # 10) * conf))
   <= 1 # 2251799813685248)%Q.
Proof.
  intros Hc. unfold p_try.
  pose proof literal_035 as H35. pose proof literal_06 as H06.
  set (c35 := fl64 chance_colloc) in *. set (c6 := fl64 (6 # 10)) in *.
  pose proof (fl64_error_bounds conf) as E0.
  set (cf := fl64 conf) in *.
  pose proof (fl64_error_bounds (c6 * cf)) as E1.
  set (a := fl64 (c6 * cf)) in *.
  pose proof (fl64_error_bounds (c6 + a)) as E2.
  set (b := fl64 (c6 + a)) in *.
  pose proof (fl64_error_bounds (c35 * b)) as E3.
  set (q := fl64 (c35 * b)) in *.
  clearbody cf a b q c35 c6.
  rewrite H06 in E1, E2. rewrite H35 in E3.
  assert (B0 : (-2 < conf < 2)%Q) by lra.
  specialize (E0 B0).
  assert (B1 : (-2 < (5404319552844595 # 9007199254740992) * cf < 2)%Q) by lra.
  specialize (E1 B1).
  assert (B2 : (-2 < (5404319552844595 # 9007199254740992) + a < 2)%Q) by lra.
  specialize (E2 B2).
  assert (B3 : (-2 < (3152519739159347 # 9007199254740992) * b < 2)%Q) by lra.
  specialize (E3 B3).
  apply Qabs_Qle_condition. lra.
Qed.

Lemma cool64_nonneg (x : Q) : (0 <= cool64 x)%Q.
Proof. unfold cool64. apply Q.le_max_l. Qed.

(** One step of the code is within [2^-52] of the exact step. *)
Lemma cool64_close (x : Q) :
  (0 <= x <= 2)%Q ->
  (cool64 x <= 2)%Q /\ (Qabs (cool64 x - cool x) <= 1 # 4503599627370496)%Q.
Proof.
  intros Hx. unfold cool64, cool.
  pose proof literal_034 as H34. set (c34 := fl64 (34 # 100)) in *.
  pose proof (fl64_error_bounds (x - c34)) as E.
  pose proof (Q.max_spec 0 (fl64 (x - c34))) as S1.
  pose proof (Q.max_spec 0 (x - (34 # 100))) as S2.
  revert S1 S2.
  generalize (Qmax 0 (fl64 (x - c34))) (Qmax 0 (x - (34 # 100))).
  set (y := fl64 (x - c34)) in *. clearbody y c34.
  rewrite H34 in E.
  assert (B : (-2 < x - (6124895493223875 # 18014398509481984) < 2)%Q) by lra.
  specialize (E B).
  intros q1 q2 [[? ?]|[? ?]] [[? ?]|[? ?]];
    (split; [lra | apply Qabs_Qle_condition; lra]).
Qed.

Lemma inject_nat_succ (n : nat) :
  (inject_Z (Z.of_nat (S n)) == inject_Z (Z.of_nat n) + 1)%Q.
Proof. rewrite Nat2Z.inj_succ. unfold Z.succ. rewrite inject_Z_plus. reflexivity. Qed.

Lemma inject_nat_nonneg (n : nat) : (0 <= inject_Z (Z.of_nat n))%Q.
Proof. change 0%Q with (inject_Z 0). rewrite <- Zle_Qle. lia. Qed.

(** [n] steps of the code from a level in [0, 2] stay in [0, 2] and within
    [n * 2^-52] of [max(0, x - 0.34 * n)]. *)
Lemma cool64_iter_close (n : nat) (x : Q) :
  (0 <= x <= 2)%Q ->
  (0 <= Nat.iter n cool64 x <= 2)%Q
  /\ (Qabs (Nat.iter n cool64 x - Qmax 0 (x - (34 # 100) * inject_Z (Z.of_nat n)))
      <= inject_Z (Z.of_nat n) * (1 # 4503599627370496))%Q.
Proof.
  intros Hx. induction n as [|n [IHr IHc]].
  - simpl Nat.iter. change (inject_Z (Z.of_nat 0)) with 0%Q. split; [exact Hx|].
    pose proof (Q.max_spec 0 (x - (34 # 100) * 0)) as S. revert S.
    generalize (Qmax 0 (x - (34 # 100) * 0)).
    intros q [[? ?]|[? ?]]; apply Qabs_Qle_condition; lra.
  - simpl Nat.iter. set (y := Nat.iter n cool64 x) in *.
    destruct (cool64_close y IHr) as [Hle Hcl].
    pose proof (cool64_nonneg y) as Hnn.
    split; [split; assumption|].
    rewrite inject_nat_succ.
    pose proof (inject_nat_nonneg n) as HN.
    apply Qabs_Qle_condition in Hcl. apply Qabs_Qle_condition in IHc.
    unfold cool in Hcl.
    pose proof (Q.max_spec 0 (y - (34 # 100))) as S1.
    pose proof (Q.max_spec 0 (x - (34 # 100) * inject_Z (Z.of_nat n))) as S2.
    pose proof (Q.max_spec 0 (x - (34 # 100) * (inject_Z (Z.of_nat n) + 1))) as S3.
    revert Hcl IHc S1 S2 S3.
    generalize (Qmax 0 (y - (34 # 100)))
               (Qmax 0 (x - (34 # 100) * inject_Z (Z.of_nat n)))
               (Qmax 0 (x - (34 # 100) * (inject_Z (Z.of_nat n) + 1)))
               (cool64 y).
    revert HN. generalize (inject_Z (Z.of_nat n)). clearbody y.
    intros N HN q1 q2 q3 z Hcl IHc [[? ?]|[? ?]] [[? ?]|[? ?]] [[? ?]|[? ?]];
      apply Qabs_Qle_condition; lra.
Qed.

(** * The renderer as the code computes: facts for any decay step *)

Section MachineFacts.

Variable lower : pystr -> pystr.
Variable step : Q -> Q.

Lemma render_reply_with_cool (r : Renderer) (c : Call) :
  render_reply_with lower cool r c = render_reply lower r c.
Proof. reflexivity. Qed.

Lemma cooldown_decrease_with (k : Kind) (r : Renderer) :
  cooldown k (_decrease_cooldowns_with step r) = step (cooldown k r).
Proof. destruct k; reflexivity. Qed.

Lemma last_used_decrease_with (k : Kind) (r : Renderer) :
  last_used k (_decrease_cooldowns_with step r) = last_used k r.
Proof. destruct k; reflexivity. Qed.

(** The four ways a call can end, with the tests that lead there. *)
Lemma render_reply_with_paths (r : Renderer) (c : Call) :
  let res := render_reply_with lower step r c in
  let dec := _decorate_with_voice lower (voice c) (base_text (semantics c)) in
  let r1 := _decrease_cooldowns_with step r in
  let budget := _budget_chars (voice c) (ctx c) in
  let past_txt := fst (_pick_relevant_moment lower (last_message (ctx c)) (ctx c)) in
  let colloc_txt := fst (_pick_collocation lower (lex_sample c) (ctx c)) in
  let past_ok := use_past lower r1 c && fits (past_snippet past_txt) budget in
  let colloc_ok := use_colloc lower r1 c && fits (colloc_snippet colloc_txt) budget in
  (vetoed c = true /\ res = {| out := dec; renderer := r1; events := [] |})
  \/ (vetoed c = false /\ past_ok = true
      /\ res = {| out := dec ++ past_snippet past_txt;
                  renderer := mark_used past past_txt r1; events := [] |})
  \/ (vetoed c = false /\ past_ok = false /\ colloc_ok = true
      /\ res = {| out := dec ++ colloc_snippet colloc_txt;
                  renderer := mark_used colloc colloc_txt r1;
                  events := record_decision c |})
  \/ (vetoed c = false /\ past_ok = false /\ colloc_ok = false
      /\ res = {| out := dec; renderer := r1; events := record_decision c |}).
Proof.
  cbv zeta. unfold render_reply_with.
  destruct (vetoed c); [left; auto|].
  destruct (use_past lower _ c && fits _ _); [right; left; auto|].
  destruct (use_colloc lower _ c && fits _ _); [right; right; left; auto|].
  right; right; right; auto.
Qed.

Ltac paths_with r c :=
  let E := fresh "E" in
  destruct (render_reply_with_paths r c)
    as [(?Hv & E) | [(?Hv & ?Hpast & E) | [(?Hv & ?Hpast & ?Hcol & E)
                                           | (?Hv & ?Hpast & ?Hcol & E)]]];
  cbv zeta in *; rewrite E; clear E; cbn [out renderer events].

(** The previous ledger is read only through the decayed one. *)
Lemma decay_comes_first (r1 r2 : Renderer) (c : Call) :
  _decrease_cooldowns_with step r1 = _decrease_cooldowns_with step r2 ->
  render_reply_with lower step r1 c = render_reply_with lower step r2 c.
Proof. intros H. unfold render_reply_with. rewrite H. reflexivity. Qed.

(** One call, seen from one kind. *)
Lemma step_kind_with (k : Kind) (r : Renderer) (c : Call) :
  let r' := renderer (render_reply_with lower step r c) in
  ((forall t, ~ appended_with lower step k r c t)
   /\ cooldown k r' = step (cooldown k r)
   /\ last_used k r' = last_used k r)
  \/ (exists t, appended_with lower step k r c t
        /\ cooldown k r' = 2%Q
        /\ last_used k r' = t
        /\ (step (cooldown k r) <= 0)%Q).
Proof.
  cbv zeta. unfold appended_with. paths_with r c.
  - left. rewrite cooldown_decrease_with, last_used_decrease_with. repeat split.
    intros t E. apply app_eq_self in E. exact (snippet_nonempty _ _ E).
  - apply andb_true_iff in Hpast as [Hu _].
    apply use_past_iff in Hu. cbv zeta in Hu. destruct Hu as (_ & _ & Hcd & _).
    rewrite cooldown_decrease_with in Hcd.
    destruct k.
    + right. eexists. split; [reflexivity|]. simpl. auto.
    + left. simpl. repeat split.
      intros t E. apply app_inv_head in E.
      pose proof (snippet_kinds_differ past colloc _ _ E). discriminate.
  - apply andb_true_iff in Hcol as [Hu _].
    apply use_colloc_iff in Hu. cbv zeta in Hu. destruct Hu as (_ & _ & _ & Hcd & _).
    rewrite cooldown_decrease_with in Hcd.
    destruct k.
    + left. simpl. repeat split.
      intros t E. apply app_inv_head in E.
      pose proof (snippet_kinds_differ colloc past _ _ E). discriminate.
    + right. eexists. split; [reflexivity|]. simpl. auto.
  - left. rewrite cooldown_decrease_with, last_used_decrease_with. repeat split.
    intros t E. apply app_eq_self in E. exact (snippet_nonempty _ _ E).
Qed.

Lemma quiet_is_unused (k : Kind) (cs : list Call) (r : Renderer) :
  quiet_with lower step r cs -> unused_with lower step k r cs.
Proof.
  revert r. induction cs as [|c cs IH]; intros r; simpl; [auto|].
  intros [Hp Hq]. split; [|apply IH, Hq].
  intros t Ha. unfold plain_with in Hp. unfold appended_with in Ha.
  rewrite Hp in Ha. apply app_eq_self in Ha. exact (snippet_nonempty _ _ Ha).
Qed.

(** Over calls that do not use kind [k], its level is stepped once a call. *)
Lemma unused_run_iter (k : Kind) (cs : list Call) (r : Renderer) :
  unused_with lower step k r cs ->
  cooldown k (run_with lower step r cs) = Nat.iter (length cs) step (cooldown k r).
Proof.
  revert r. induction cs as [|c cs IH]; intros r; simpl; [reflexivity|].
  intros [Hn Hu]. rewrite (IH _ Hu).
  destruct (step_kind_with k r c) as [(_ & -> & _) | (t & Ha & _)];
    [|destruct (Hn t Ha)].
  symmetry. apply (Nat.iter_succ_r (length cs) step).
Qed.

(** When the collocation is appended. *)
Lemma collocation_gate_with (r : Renderer) (c : Call) (t : pystr) :
  let pick := _pick_collocation lower (lex_sample c) (ctx c) in
  appended_with lower step colloc r c t
  <-> (conf_min <= _confidence (voice c))%Q
      /\ get_prefers_long (ctx c) <> PyBool false
      /\ (forall t', ~ appended_with lower step past r c t')
      /\ t = or_empty (lex_sample c)
      /\ t <> []
      /\ (rnd c < p_try (_confidence (voice c)))%Q
      /\ (colloc_relevance <= snd pick)%Q
      /\ (step (cooldown colloc r) <= 0)%Q
      /\ t <> last_used colloc r
      /\ (length t + 4 <= Z.to_nat (_budget_chars (voice c) (ctx c)))%nat.
Proof.
  cbv zeta.
  pose proof (pick_collocation_fst lower (lex_sample c) (ctx c)) as Hfst.
  split.
  - intros Ha.
    assert (Hnp : forall t', ~ appended_with lower step past r c t').
    { intros t' Hp. unfold appended_with in Ha, Hp. rewrite Hp in Ha.
      apply app_inv_head in Ha.
      pose proof (snippet_kinds_differ past colloc _ _ Ha). discriminate. }
    unfold appended_with in Ha. revert Ha. paths_with r c; intros Ha.
    + apply app_eq_self in Ha. destruct (snippet_nonempty _ _ Ha).
    + apply app_inv_head in Ha.
      pose proof (snippet_kinds_differ past colloc _ _ Ha). discriminate.
    + apply app_inv_head in Ha. apply (snippet_inj colloc) in Ha. subst t.
      apply andb_true_iff in Hcol as [Hu Hf].
      apply use_colloc_iff in Hu. cbv zeta in Hu. destruct Hu as (H1 & H2 & H3 & H4 & H5).
      apply fits_iff in Hf. rewrite length_colloc_snippet in Hf.
      apply vetoed_false_iff in Hv as [Hc Hp].
      rewrite cooldown_decrease_with in H4. rewrite last_used_decrease_with in H5.
      rewrite Hfst in *. repeat split; assumption.
    + apply app_eq_self in Ha. destruct (snippet_nonempty _ _ Ha).
  - intros (Hc & Hp & Hnp & -> & H1 & H2 & H3 & H4 & H5 & Hf).
    assert (Hv : vetoed c = false) by (apply vetoed_false_iff; auto).
    assert (Hok : use_colloc lower (_decrease_cooldowns_with step r) c
                  && fits (colloc_snippet
                             (fst (_pick_collocation lower (lex_sample c) (ctx c))))
                          (_budget_chars (voice c) (ctx c)) = true).
    { apply andb_true_iff. split.
      - apply use_colloc_iff. cbv zeta.
        rewrite cooldown_decrease_with, last_used_decrease_with, Hfst. auto.
      - apply fits_iff. rewrite length_colloc_snippet, Hfst. exact Hf. }
    revert Hnp. unfold appended_with. paths_with r c; intros Hnp; try congruence.
    + destruct (Hnp _ eq_refl).
    + rewrite Hfst. reflexivity.
Qed.

End MachineFacts.

(** * The numeric claims, on the renderer as the code computes *)

Lemma reachable_with_range (lower : pystr -> pystr) (k : Kind) (r : Renderer) :
  reachable_with lower cool64 r -> (0 <= cooldown k r <= 2)%Q.
Proof.
  intros H. induction H as [|r c _ IH].
  - destruct k; simpl; lra.
  - destruct (step_kind_with lower cool64 k r c) as [(_ & -> & _) | (t & _ & -> & _)].
    + pose proof (cool64_nonneg (cooldown k r)).
      destruct (cool64_close (cooldown k r) IH) as [Hle _]. split; assumption.
    + lra.
Qed.

(** C5 (as the code has it). The attempt probability of line 123 is
    [0.35 * (0.6 + 0.6 * confidence)] computed in doubles: within [2^-51] of
    the exact value for a confidence in [0, 1], the double 0.21 at
    confidence 0 and the double 0.42 at confidence 1.  It is the threshold
    of the random gate and of nothing else: a collocation [t] is appended
    exactly when the draw is below it and the other conditions hold, the
    first of which is that the call is not vetoed (confidence at least 0.55,
    so that the values below 0.3255 are never used). *)
Theorem C5_attempt_probability
    (lower : pystr -> pystr) (r : Renderer) (c : Call) (t : pystr) :
  (forall conf, (0 <= conf <= 1)%Q ->
     (Qabs (p_try conf - (35 # 100) * ((6 # 10) + (6 # 10) * conf))
      <= 1 # 2251799813685248)%Q)
  /\ (p_try 0 == fl64 (21 # 100))%Q
  /\ (p_try 1 == fl64 (42 # 100))%Q
  /\ (appended_with lower cool64 colloc r c t
      <-> (conf_min <= _confidence (voice c))%Q
          /\ get_prefers_long (ctx c) <> PyBool false
          /\ (forall t', ~ appended_with lower cool64 past r c t')
          /\ t = or_empty (lex_sample c)
          /\ t <> []
          /\ (rnd c < p_try (_confidence (voice c)))%Q
          /\ (colloc_relevance <= snd (_pick_collocation lower (lex_sample c) (ctx c)))%Q
          /\ (cool64 (cooldown colloc r) <= 0)%Q
          /\ t <> last_used colloc r
          /\ (length t + 4 <= Z.to_nat (_budget_chars (voice c) (ctx c)))%nat).
Proof.
  split; [exact p_try_close|].
  split; [vm_compute; reflexivity|].
  split; [vm_compute; reflexivity|].
  exact (collocation_gate_with lower cool64 r c t).
Qed.

Lemma C5_witness :
  (Qabs (p_try (3 # 4) - (35 # 100) * ((6 # 10) + (6 # 10) * (3 # 4)))
   <= 1 # 2251799813685248)%Q
  /\ appended_with latin1_lower cool64 colloc init (call_colloc (3 # 4) (1 # 3))
       (str "garden party").
Proof.
  pose proof (C5_attempt_probability latin1_lower init (call_colloc (3 # 4) (1 # 3))
                (str "garden party")) as (Hclose & _ & _ & Hgate).
  split.
  - apply Hclose. split; vm_compute; discriminate.
  - apply Hgate.
    split; [vm_compute; discriminate|].
    split; [vm_compute; discriminate|].
    split; [intros t' H; unfold appended_with in H; vm_compute in H; discriminate H|].
    split; [vm_compute; reflexivity|].
    split; [vm_compute; discriminate|].
    split; [vm_compute; reflexivity|].
    split; [vm_compute; discriminate|].
    split; [vm_compute; discriminate|].
    split; [vm_compute; discriminate|].
    vm_compute. lia.
Defined.

(** C5 as stated fails twice: at confidence 1 the attempt probability is
    0.42, which is not roughly 0.56; and at confidence 0 the call is vetoed,
    so that no collocation is attempted even with the lowest draw. *)
Lemma C5_counterexample :
  (p_try 1 == fl64 (42 # 100))%Q
  /\ ~ roughly (p_try 1) (56 # 100)
  /\ vetoed (call_colloc 0 0) = true
  /\ (rnd (call_colloc 0 0) < p_try 0)%Q
  /\ out (render_reply_with latin1_lower cool64 init (call_colloc 0 0))
     = str "Sure, I can help.".
Proof.
  split; [vm_compute; reflexivity|].
  split; [unfold roughly; vm_compute; intros H; apply H; reflexivity|].
  split; [vm_compute; reflexivity|].
  split; vm_compute; reflexivity.
Qed.

(** The gate is strict on the value the code computes: at confidence 0.75
    that value is 0.36749999999999994; a draw equal to it fails, the next
    double below passes. *)
Example gate_at_the_computed_value :
  (p_try (3 # 4) == 1655072863058657 # 4503599627370496)%Q
  /\ out (render_reply_with latin1_lower cool64 init
            (call_colloc (3 # 4) (1655072863058657 # 4503599627370496)))
     = str "Sure, I can help."
  /\ out (render_reply_with latin1_lower cool64 init
            (call_colloc (3 # 4) (1655072863058656 # 4503599627370496)))
     = str "Sure, I can help." ++ colloc_snippet (str "garden party").
Proof.
  split; [vm_compute; reflexivity|]. split; vm_compute; reflexivity.
Qed.

(** C6 as stated fails: three division signs form a token, and the division
    sign is not alphabetic. *)
Lemma C6_counterexample :
  _tokens latin1_lower (Some [247%N; 247%N; 247%N]) = {[ [247%N; 247%N; 247%N] ]}
  /\ is_alpha 247 = false.
Proof. split; vm_compute; reflexivity. Qed.

(** C8 (as the code computes). Every call first replaces each level [x] by
    [max(0.0, x - 0.34)] in doubles, which is within [2^-52] of the exact
    value: after the call the level is that decayed value, unless an
    ornament of the kind was appended, in which case it is 2.0 and the
    decayed level was 0; the call reads the previous ledger only through
    the decayed one, so the decay comes before the eligibility tests.  The
    level is never negative.  On a reachable state it lies in [0, 2], and
    over [N] calls in a row that append no ornament it becomes the [N]-fold
    result of that step, which is within [N * 2^-52] of
    [max(0, initial - 0.34 * N)]. *)
Theorem C8_cooldown_decay
    (lower : pystr -> pystr) (k : Kind) (r : Renderer) (c : Call) (cs : list Call) :
  let r' := renderer (render_reply_with lower cool64 r c) in
  (((forall t, ~ appended_with lower cool64 k r c t)
    /\ cooldown k r' = cool64 (cooldown k r))
   \/ ((exists t, appended_with lower cool64 k r c t)
       /\ cooldown k r' = 2%Q
       /\ (cool64 (cooldown k r) <= 0)%Q))
  /\ (forall r2,
        _decrease_cooldowns_with cool64 r2 = _decrease_cooldowns_with cool64 r ->
        render_reply_with lower cool64 r2 c = render_reply_with lower cool64 r c)
  /\ (0 <= cooldown k r')%Q
  /\ ((0 <= cooldown k r <= 2)%Q ->
      (Qabs (cool64 (cooldown k r) - Qmax 0 (cooldown k r - (34 # 100)))
       <= 1 # 4503599627370496)%Q)
  /\ (reachable_with lower cool64 r ->
      (0 <= cooldown k r <= 2)%Q
      /\ (quiet_with lower cool64 r cs ->
          cooldown k (run_with lower cool64 r cs)
            = Nat.iter (length cs) cool64 (cooldown k r)
          /\ (Qabs (cooldown k (run_with lower cool64 r cs)
                    - Qmax 0 (cooldown k r - (34 # 100) * inject_Z (Z.of_nat (length cs))))
              <= inject_Z (Z.of_nat (length cs)) * (1 # 4503599627370496))%Q)).
Proof.
  cbv zeta. split; [|split; [|split; [|split]]].
  - destruct (step_kind_with lower cool64 k r c)
      as [(Hn & Hc & _) | (t & Ha & Hc & _ & Hd)].
    + left. split; assumption.
    + right. split; [exists t; exact Ha | split; assumption].
  - intros r2 H. apply decay_comes_first, H.
  - destruct (step_kind_with lower cool64 k r c) as [(_ & -> & _) | (t & _ & -> & _)].
    + apply cool64_nonneg.
    + lra.
  - intros Hr. apply (cool64_close (cooldown k r) Hr).
  - intros Hr. pose proof (reachable_with_range lower k r Hr) as Hrange.
    split; [exact Hrange|]. intros Hq.
    pose proof (unused_run_iter lower cool64 k cs r (quiet_is_unused lower cool64 k cs r Hq))
      as Hit.
    split; [exact Hit|]. rewrite Hit.
    apply (cool64_iter_close (length cs) (cooldown k r) Hrange).
Qed.

Lemma C8_witness :
  render_reply_with latin1_lower cool64 colloc_at_quarter (call_colloc (3 # 4) (1 # 3))
    = render_reply_with latin1_lower cool64 init (call_colloc (3 # 4) (1 # 3))
  /\ (Qabs (cool64 2 - Qmax 0 (2 - (34 # 100))) <= 1 # 4503599627370496)%Q
  /\ cooldown past (run_with latin1_lower cool64 after_move64 (repeat call_question 3))
     = Nat.iter 3 cool64 (cooldown past after_move64).
Proof.
  split; [|split].
  - apply (proj1 (proj2 (C8_cooldown_decay latin1_lower colloc init
                           (call_colloc (3 # 4) (1 # 3)) []))).
    vm_compute. reflexivity.
  - apply (proj1 (proj2 (proj2 (proj2
             (C8_cooldown_decay latin1_lower past after_move64 call_question []))))).
    split; vm_compute; discriminate.
  - apply (proj2 (proj2 (proj2 (proj2
             (C8_cooldown_decay latin1_lower past after_move64 call_question
                (repeat call_question 3)))))).
    + unfold after_move64. apply reach_with_call, reach_with_init.
    + cbn [quiet_with repeat]. unfold plain_with.
      split; [vm_compute; reflexivity|].
      split; [vm_compute; reflexivity|].
      split; [vm_compute; reflexivity|exact I].
Defined.

(** C8 as stated fails: after three calls without ornament the level that
    was 2.0 is 0.9799999999999998, which is neither [max(0, 2 - 0.34 * 3)]
    nor that expression evaluated in doubles (0.98). *)
Lemma C8_counterexample :
  quiet_with latin1_lower cool64 after_move64 (repeat call_question 3)
  /\ cooldown past after_move64 = 2%Q
  /\ (cooldown past (run_with latin1_lower cool64 after_move64 (repeat call_question 3))
      == 4413527634823085 # 4503599627370496)%Q
  /\ ~ (cooldown past (run_with latin1_lower cool64 after_move64 (repeat call_question 3))
        == Qmax 0 (2 - (34 # 100) * 3))%Q
  /\ ~ (cooldown past (run_with latin1_lower cool64 after_move64 (repeat call_question 3))
        == Qmax 0 (fl64 (2 - fl64 (fl64 (34 # 100) * 3))))%Q.
Proof.
  split.
  { cbn [quiet_with repeat]. unfold plain_with.
    split; [vm_compute; reflexivity|].
    split; [vm_compute; reflexivity|].
    split; [vm_compute; reflexivity|exact I]. }
  split; [vm_compute; reflexivity|].
  split; [vm_compute; reflexivity|].
  split; vm_compute; discriminate.
Qed.

(** X5. The two kinds cool down independently: over [N] calls that append
    no ornament of kind [k] (ornaments of the other kind may be appended),
    the level of kind [k] becomes the [N]-fold result of the step of line
    54, and from a level in [0, 2] this is within [N * 2^-52] of
    [max(0, level - 0.34 * N)]. *)
Theorem unused_kind_decays
    (lower : pystr -> pystr) (k : Kind) (r : Renderer) (cs : list Call) :
  unused_with lower cool64 k r cs ->
  cooldown k (run_with lower cool64 r cs) = Nat.iter (length cs) cool64 (cooldown k r)
  /\ ((0 <= cooldown k r <= 2)%Q ->
      (Qabs (cooldown k (run_with lower cool64 r cs)
             - Qmax 0 (cooldown k r - (34 # 100) * inject_Z (Z.of_nat (length cs))))
       <= inject_Z (Z.of_nat (length cs)) * (1 # 4503599627370496))%Q).
Proof.
  intros Hu. pose proof (unused_run_iter lower cool64 k cs r Hu) as Hit.
  split; [exact Hit|]. intros Hr. rewrite Hit.
  apply (cool64_iter_close (length cs) (cooldown k r) Hr).
Qed.

Lemma unused_kind_decays_witness :
  appended_with latin1_lower cool64 colloc after_move64 (call_colloc (3 # 4) (1 # 3))
    (str "garden party")
  /\ cooldown past (run_with latin1_lower cool64 after_move64
                      [call_colloc (3 # 4) (1 # 3); call_question])
     = Nat.iter 2 cool64 (cooldown past after_move64).
Proof.
  split; [unfold appended_with; vm_compute; reflexivity|].
  apply (unused_kind_decays latin1_lower past after_move64
           [call_colloc (3 # 4) (1 # 3); call_question]).
  cbn [unused_with].
  split; [intros t H; unfold appended_with in H; vm_compute in H; discriminate H|].
  split; [intros t H; unfold appended_with in H; vm_compute in H; discriminate H|exact I].
Defined.
